(** * uMessage: presence registry and message router

    A shallow embedding of [lib/uMessage.js] (the [uMessage] class) and of
    the stand-alone [server.js] (the same logic written inline in the
    uWebSockets handlers), with the properties of the routing core. *)

From Stdlib Require Import List Ascii String ZArith Bool Arith Lia.
Import ListNotations.
Open Scope string_scope.
Open Scope list_scope.

(* ===================================================================== *)
(** * JavaScript values and containers *)
(* ===================================================================== *)

Module JS.

(** What [JSON.parse] can return, plus [undefined] for an absent property.
    Numbers are kept as integers: the router never computes with them, it
    only compares them and copies them into payloads. *)
#[warnings="-register-all"]
Inductive jsval : Type :=
| JUndefined
| JNull
| JBool (b : bool)
| JNum (n : Z)
| JStr (s : string)
| JArr (elems : list jsval)
| JObj (props : list (string * jsval)).

(** [a === b], which on these values is also the SameValueZero comparison
    of [Map] keys.  Primitives compare by value.  Arrays and objects compare
    by reference: every comparison the router makes is between a value
    stored by an earlier frame and a value of the frame being processed, or
    a string literal, so two objects are never the same reference. *)
Definition strict_eq (a b : jsval) : bool :=
  match a, b with
  | JUndefined, JUndefined => true
  | JNull, JNull => true
  | JBool x, JBool y => Bool.eqb x y
  | JNum x, JNum y => Z.eqb x y
  | JStr x, JStr y => String.eqb x y
  | _, _ => false
  end.

(** Strings, numbers, booleans, [null] and [undefined]: the values that
    hold no other value. *)
Definition primitive (v : jsval) : bool :=
  match v with
  | JArr _ | JObj _ => false
  | _ => true
  end.

Inductive exn : Type := SyntaxError | TypeError | RangeError.

(** Own property of a parsed object. *)
Fixpoint own_prop (props : list (string * jsval)) (k : string) : jsval :=
  match props with
  | [] => JUndefined
  | (k', v) :: rest => if String.eqb k' k then v else own_prop rest k
  end.

(** [o.k] for the property names the router reads ([type], [name],
    [mobile], [groupName], [to], [content]): none of them exists on a
    prototype, so on a boolean, number, string or array the result is
    [undefined]; on [null] the access throws. *)
Definition get (o : jsval) (k : string) : exn + jsval :=
  match o with
  | JUndefined | JNull => inl TypeError
  | JObj props => inr (own_prop props k)
  | _ => inr JUndefined
  end.

(** ** [Map]: insertion-ordered, keys unique up to the key comparison *)

Section InsertionOrderedMap.
Context {K V : Type} (keq : K -> K -> bool).

Fixpoint map_get (m : list (K * V)) (k : K) : option V :=
  match m with
  | [] => None
  | (k', v) :: m' => if keq k' k then Some v else map_get m' k
  end.

Definition map_has (m : list (K * V)) (k : K) : bool :=
  match map_get m k with Some _ => true | None => false end.

(** [m.set(k, v)]: an existing key keeps its place, a new one goes last. *)
Fixpoint map_set (m : list (K * V)) (k : K) (v : V) : list (K * V) :=
  match m with
  | [] => [(k, v)]
  | (k', v') :: m' =>
      if keq k' k then (k', v) :: m' else (k', v') :: map_set m' k v
  end.

Fixpoint map_delete (m : list (K * V)) (k : K) : list (K * V) :=
  match m with
  | [] => []
  | (k', v') :: m' => if keq k' k then m' else (k', v') :: map_delete m' k
  end.

Definition map_keys (m : list (K * V)) : list K := List.map fst m.

(** The object stored under [k] is mutated in place by [f]. *)
Fixpoint map_mutate (m : list (K * V)) (k : K) (f : V -> V) : list (K * V) :=
  match m with
  | [] => []
  | (k', v') :: m' =>
      if keq k' k then (k', f v') :: m' else (k', v') :: map_mutate m' k f
  end.

End InsertionOrderedMap.

(** ** [Set]: insertion-ordered, no duplicates *)

Section InsertionOrderedSet.
Context {X : Type} (xeq : X -> X -> bool).

Fixpoint set_has (s : list X) (x : X) : bool :=
  match s with
  | [] => false
  | y :: s' => if xeq y x then true else set_has s' x
  end.

Definition set_add (s : list X) (x : X) : list X :=
  if set_has s x then s else s ++ [x].

Fixpoint set_delete (s : list X) (x : X) : list X :=
  match s with
  | [] => []
  | y :: s' => if xeq y x then s' else y :: set_delete s' x
  end.

End InsertionOrderedSet.

End JS.

(* ===================================================================== *)
(** * lib/uMessage.js *)
(* ===================================================================== *)

Module UMessage.
Import JS.

(** A connection handle ([ws]): compared by identity only. *)
Definition socket : Type := nat.

(** The object [{ name, mobile }] stored for a registered connection. *)
Record user : Type := { name : jsval; mobile : jsval }.

(** The objects given to [JSON.stringify] before [send]. *)
Inductive payload : Type :=
| registered (success : bool)
| group_list (groups : list jsval)
| user_list (users : list user)
| user_joined (u : user)
| user_left (mobile : jsval)
| joined_group (groupName : jsval)
| group_created (groupName : jsval)
| message (from fromMobile to content : jsval).

(** The lines written to the console. *)
Inductive logline : Type :=
| Received (text : string)
| ErrorProcessingMessage (e : exn)
| WebSocketClosed
| UserRegistered (name mobile : jsval)
| UserJoinedGroup (groupName : jsval).

Inductive effect : Type :=
| Send (to : socket) (p : payload)
| Console (l : logline).

(** The two fields of a [uMessage] object. *)
Record uMessage : Type := {
  users : list (socket * user);          (* Map: socket -> { name, mobile } *)
  groups : list (jsval * list socket)    (* Map: groupId -> Set<socket> *)
}.

(** [constructor()] *)
Definition new_uMessage : uMessage := {| users := []; groups := [] |}.

(** ** The handlers' monad: the object's state, the effects performed so
    far, and either a result or a thrown exception. *)

Inductive outcome (A : Type) : Type :=
| Normal (a : A)
| Thrown (e : exn).
Arguments Normal {A} a.
Arguments Thrown {A} e.

Definition M (A : Type) : Type := uMessage -> outcome A * uMessage * list effect.

Definition ret {A} (a : A) : M A := fun s => (Normal a, s, []).

Definition bind {A B} (m : M A) (k : A -> M B) : M B := fun s =>
  match m s with
  | (Normal a, s1, t1) => let '(r, s2, t2) := k a s1 in (r, s2, t1 ++ t2)
  | (Thrown e, s1, t1) => (Thrown e, s1, t1)
  end.

Definition throw {A} (e : exn) : M A := fun s => (Thrown e, s, []).

Definition try_catch (body : M unit) (handler : exn -> M unit) : M unit := fun s =>
  match body s with
  | (Normal a, s1, t1) => (Normal a, s1, t1)
  | (Thrown e, s1, t1) => let '(r, s2, t2) := handler e s1 in (r, s2, t1 ++ t2)
  end.

Declare Scope js_scope.
Delimit Scope js_scope with js.
Notation "x <- m ;; k" := (bind m (fun x => k))
  (at level 61, m at next level, right associativity) : js_scope.
Notation "m ;; k" := (bind m (fun _ => k))
  (at level 61, right associativity) : js_scope.
Open Scope js_scope.

Definition lift (r : exn + jsval) : M jsval :=
  match r with inl e => throw e | inr v => ret v end.

Definition send (ws : socket) (p : payload) : M unit :=
  fun s => (Normal tt, s, [Send ws p]).

Definition console_log (l : logline) : M unit :=
  fun s => (Normal tt, s, [Console l]).

Definition this_users : M (list (socket * user)) := fun s => (Normal (users s), s, []).
Definition this_groups : M (list (jsval * list socket)) := fun s => (Normal (groups s), s, []).
Definition set_users (us : list (socket * user)) : M unit :=
  fun s => (Normal tt, {| users := us; groups := groups s |}, []).
Definition set_groups (gs : list (jsval * list socket)) : M unit :=
  fun s => (Normal tt, {| users := users s; groups := gs |}, []).

Fixpoint forEach {X} (xs : list X) (f : X -> M unit) : M unit :=
  match xs with
  | [] => ret tt
  | x :: xs' => f x ;; forEach xs' f
  end.

(** [sender ? sender.name : 'Anonymous'] and [sender ? sender.mobile : '?'] *)
Definition sender_name (sender : option user) : jsval :=
  match sender with Some u => name u | None => JStr "Anonymous" end.
Definition sender_mobile (sender : option user) : jsval :=
  match sender with Some u => mobile u | None => JStr "?" end.

(** The [for ... of this.users.entries()] loop with [break] of the
    direct-message branch: the first socket whose [mobile] is [to]. *)
Fixpoint targetSocket (entries : list (socket * user)) (to : jsval) : option socket :=
  match entries with
  | [] => None
  | (sock, userData) :: rest =>
      if strict_eq (mobile userData) to then Some sock else targetSocket rest to
  end.

(** ** What depends on the engine

    [JSON.stringify] and the conversion of a value to a string in a template
    literal recurse into nested arrays and objects and throw a RangeError
    when the stack runs out; the conversion also throws a TypeError for an
    object whose own [toString] is not callable.  Which values are too deep
    is the engine's affair. *)
Record engine : Type := {
  stringify_overflows : payload -> bool;   (* JSON.stringify throws RangeError *)
  ToString_throws : jsval -> option exn    (* what the conversion throws, if it does *)
}.

(** The values of a payload that come from clients. *)
Definition client_values (p : payload) : list jsval :=
  match p with
  | registered _ => []
  | group_list groups => groups
  | user_list users => flat_map (fun u => [name u; mobile u]) users
  | user_joined u => [name u; mobile u]
  | user_left mobile => [mobile]
  | joined_group groupName => [groupName]
  | group_created groupName => [groupName]
  | message from fromMobile to content => [from; fromMobile; to; content]
  end.

(** A payload whose client values are all primitive is three objects deep
    at most: it is serialised on every engine. *)
Definition flat (p : payload) : bool := forallb primitive (client_values p).

Definition stringify_throws (E : engine) (p : payload) : bool :=
  negb (flat p) && stringify_overflows E p.

(** A primitive is converted to a string on every engine. *)
Definition template_throws (E : engine) (v : jsval) : option exn :=
  if primitive v then None else ToString_throws E v.

Section Router.
(** [JSON.parse], with [None] for a thrown SyntaxError. *)
Variable JSON_parse : string -> option jsval.
Variable E : engine.

(** [JSON.stringify(p)]: the text to send, which stands for [p] itself. *)
Definition JSON_stringify (p : payload) : M payload :=
  if stringify_throws E p then throw RangeError else ret p.

(** A template-literal substitution [${v}]. *)
Definition substitution (v : jsval) : M unit :=
  match template_throws E v with
  | Some e => throw e
  | None => ret tt
  end.

Definition _handleRegister (ws : socket) (json : jsval) : M unit :=
  name <- lift (get json "name") ;;
  mobile <- lift (get json "mobile") ;;
  us <- this_users ;;
  set_users (map_set Nat.eqb us ws {| name := name; mobile := mobile |}) ;;
  text <- JSON_stringify (registered true) ;;
  send ws text ;;
  substitution name ;; substitution mobile ;;
  console_log (UserRegistered name mobile) ;;
  gs <- this_groups ;;
  let groupList := map_keys gs in
  text <- JSON_stringify (group_list groupList) ;;
  send ws text ;;
  us <- this_users ;;
  let userList := map snd (filter (fun e => negb (Nat.eqb (fst e) ws)) us) in
  text <- JSON_stringify (user_list userList) ;;
  send ws text ;;
  userJoinedPayload <- JSON_stringify (user_joined {| name := name; mobile := mobile |}) ;;
  us <- this_users ;;
  forEach us (fun e =>
    if negb (Nat.eqb (fst e) ws) then send (fst e) userJoinedPayload else ret tt).

Definition _handleJoinGroup (ws : socket) (json : jsval) : M unit :=
  groupName <- lift (get json "groupName") ;;
  gs <- this_groups ;;
  (* [this.groups.get(groupName)] right after [this.groups.set(groupName,
     new Set())] is that new Set, also under an object key (it is the same
     reference), and [group.add(ws)] fills it; an existing group is the
     first entry with an equal key, changed in place *)
  isNew <- (if negb (map_has strict_eq gs groupName)
            then set_groups (gs ++ [(groupName, set_add Nat.eqb [] ws)]) ;; ret true
            else set_groups (map_mutate strict_eq gs groupName
                               (fun group => set_add Nat.eqb group ws)) ;; ret false) ;;
  text <- JSON_stringify (joined_group groupName) ;;
  send ws text ;;
  substitution groupName ;;
  console_log (UserJoinedGroup groupName) ;;
  if isNew
  then
    newGroupPayload <- JSON_stringify (group_created groupName) ;;
    us <- this_users ;;
    forEach us (fun e => send (fst e) newGroupPayload)
  else ret tt.

Definition _handleChatMessage (ws : socket) (json : jsval) : M unit :=
  to <- lift (get json "to") ;;
  content <- lift (get json "content") ;;
  gs <- this_groups ;;
  match map_get strict_eq gs to with
  | Some group =>
      us <- this_users ;;
      let sender := map_get Nat.eqb us ws in
      payload <- JSON_stringify
                   (message (sender_name sender) (sender_mobile sender) to content) ;;
      forEach group (fun sock => send sock payload)
  | None =>
      us <- this_users ;;
      match targetSocket us to with
      | Some target =>
          let sender := map_get Nat.eqb us ws in
          text <- JSON_stringify
                    (message (sender_name sender) (sender_mobile sender) to content) ;;
          send target text
      | None => ret tt
      end
  end.

Definition handleOpen (ws : socket) : M unit := ret tt.

(** No [try] here: what [JSON.stringify] throws leaves the handler. *)
Definition handleClose (ws : socket) : M unit :=
  console_log WebSocketClosed ;;
  us <- this_users ;;
  match map_get Nat.eqb us ws with
  | Some user =>
      userLeftPayload <- JSON_stringify (user_left (mobile user)) ;;
      forEach us (fun e =>
        if negb (Nat.eqb (fst e) ws) then send (fst e) userLeftPayload else ret tt)
  | None => ret tt
  end ;;
  us <- this_users ;;
  set_users (map_delete Nat.eqb us ws) ;;
  gs <- this_groups ;;
  set_groups (map (fun g => (fst g, set_delete Nat.eqb (snd g) ws)) gs).

Definition parse (text : string) : M jsval :=
  match JSON_parse text with Some v => ret v | None => throw SyntaxError end.

(** [message] is taken as the text [Buffer.from(message).toString()]. *)
Definition handleMessage (ws : socket) (message : string) : M unit :=
  try_catch
    (let text := message in
     console_log (Received text) ;;
     json <- parse text ;;
     type <- lift (get json "type") ;;
     if strict_eq type (JStr "register") then _handleRegister ws json
     else
       type <- lift (get json "type") ;;
       if strict_eq type (JStr "join_group") then _handleJoinGroup ws json
       else
         type <- lift (get json "type") ;;
         if strict_eq type (JStr "message") then _handleChatMessage ws json
         else ret tt)
    (fun e => console_log (ErrorProcessingMessage e)).

(** ** The transport's calls into the object *)

Inductive call : Type :=
| Open (ws : socket)
| Message (ws : socket) (raw : string)
| Close (ws : socket).

Definition dispatch (c : call) : M unit :=
  match c with
  | Open ws => handleOpen ws
  | Message ws raw => handleMessage ws raw
  | Close ws => handleClose ws
  end.

(** A run of the server: the calls are served one after the other on a
    fresh object; an exception that leaves a handler ends the run. *)
Definition serve (calls : list call) : outcome unit * uMessage * list effect :=
  forEach calls dispatch new_uMessage.

Definition state_after (calls : list call) : uMessage := snd (fst (serve calls)).

End Router.

(** ** Reading a handler's result *)

Definition result_of {A} (r : outcome A * uMessage * list effect) : outcome A := fst (fst r).
Definition state_of {A} (r : outcome A * uMessage * list effect) : uMessage := snd (fst r).
Definition effects_of {A} (r : outcome A * uMessage * list effect) : list effect := snd r.

(** The [send] calls among the effects, in order. *)
Fixpoint sends (t : list effect) : list (socket * payload) :=
  match t with
  | [] => []
  | Send ws p :: t' => (ws, p) :: sends t'
  | Console _ :: t' => sends t'
  end.

(** What connection [ws] receives, in order. *)
Definition received (ws : socket) (t : list effect) : list payload :=
  map snd (filter (fun d => Nat.eqb (fst d) ws) (sends t)).

(** ** Notions used to state the properties *)

Definition registered_as (st : uMessage) (ws : socket) : option user :=
  map_get Nat.eqb (users st) ws.

Definition is_registered (st : uMessage) (ws : socket) : bool :=
  map_has Nat.eqb (users st) ws.

(** The registered connections other than [ws], in registry order. *)
Definition others (ws : socket) (st : uMessage) : list (socket * user) :=
  filter (fun e => negb (Nat.eqb (fst e) ws)) (users st).

(** What [try]/[catch] makes of a handler's run, after the [Received] line. *)
Definition caught (text : string) (r : outcome unit * uMessage * list effect)
  : outcome unit * uMessage * list effect :=
  match r with
  | (Normal _, s, t) => (Normal tt, s, Console (Received text) :: t)
  | (Thrown e, s, t) =>
      (Normal tt, s, Console (Received text) :: t ++ [Console (ErrorProcessingMessage e)])
  end.

(** [c] is the first connection, in the registry's iteration order, whose
    registered identity is [to]. *)
Definition first_with_identity (us : list (socket * user)) (to : jsval) (c : socket) : Prop :=
  exists before u after,
    us = before ++ (c, u) :: after /\
    strict_eq (mobile u) to = true /\
    Forall (fun e => strict_eq (mobile (snd e)) to = false) before.


(** Where a chat message addressed to [to] goes. *)
Definition destinations (st : uMessage) (to : jsval) : list socket :=
  match map_get strict_eq (groups st) to with
  | Some group => group
  | None => match targetSocket (users st) to with Some t => [t] | None => [] end
  end.

(** A parsed frame whose [type] is one of the three the router handles. *)
Definition recognised (json : jsval) : bool :=
  match get json "type" with
  | inr type =>
      strict_eq type (JStr "register") || strict_eq type (JStr "join_group")
      || strict_eq type (JStr "message")
  | inl _ => false
  end.

(** A frame the router acts on: it parses and its [type] is recognised. *)
Definition well_formed_frame (JSON_parse : string -> option jsval) (text : string) : bool :=
  match JSON_parse text with
  | Some json => recognised json
  | None => false
  end.

(** The registries are well formed: a connection is a key of [users] at most
    once and a member of each group at most once. *)
Definition well_formed (st : uMessage) : Prop :=
  NoDup (map fst (users st)) /\ Forall (fun g => NoDup (snd g)) (groups st).

(** The state changes a handler can make. *)
Definition registered_state (ws : socket) (u : user) (st : uMessage) : uMessage :=
  {| users := map_set Nat.eqb (users st) ws u; groups := groups st |}.

Definition joined_state (ws : socket) (groupName : jsval) (st : uMessage) : uMessage :=
  {| users := users st;
     groups := if map_has strict_eq (groups st) groupName
               then map_mutate strict_eq (groups st) groupName
                      (fun group => set_add Nat.eqb group ws)
               else groups st ++ [(groupName, [ws])] |}.

Definition closed_state (ws : socket) (st : uMessage) : uMessage :=
  {| users := map_delete Nat.eqb (users st) ws;
     groups := map (fun g => (fst g, set_delete Nat.eqb (snd g) ws)) (groups st) |}.

Inductive step (st : uMessage) : uMessage -> Prop :=
| step_none : step st st
| step_register ws u : step st (registered_state ws u st)
| step_join ws groupName : step st (joined_state ws groupName st)
| step_close ws : step st (closed_state ws st).

End UMessage.

(* ===================================================================== *)
(** * server.js: the same router, inline in the uWebSockets handlers *)
(* ===================================================================== *)

Module Server.
Import JS UMessage.

Section Handlers.
Variable JSON_parse : string -> option jsval.
Variable E : engine.

(** The module-level [users] and [groups] maps are the two fields of the
    state; [res] is the connection of the call. *)
Definition message (res : socket) (raw : string) : M unit :=
  try_catch
    (let text := raw in
     console_log (Received text) ;;
     json <- parse JSON_parse text ;;
     type <- lift (get json "type") ;;
     if strict_eq type (JStr "register") then
       name <- lift (get json "name") ;;
       mobile <- lift (get json "mobile") ;;
       us <- this_users ;;
       set_users (map_set Nat.eqb us res {| name := name; mobile := mobile |}) ;;
       text <- JSON_stringify E (registered true) ;;
       send res text ;;
       substitution E name ;; substitution E mobile ;;
       console_log (UserRegistered name mobile) ;;
       gs <- this_groups ;;
       let groupList := map_keys gs in
       text <- JSON_stringify E (group_list groupList) ;;
       send res text ;;
       us <- this_users ;;
       let userList := map snd (filter (fun e => negb (Nat.eqb (fst e) res)) us) in
       text <- JSON_stringify E (user_list userList) ;;
       send res text ;;
       userJoinedPayload <-
         JSON_stringify E (user_joined {| name := name; mobile := mobile |}) ;;
       us <- this_users ;;
       forEach us (fun e =>
         if negb (Nat.eqb (fst e) res) then send (fst e) userJoinedPayload else ret tt)
     else
       type <- lift (get json "type") ;;
       if strict_eq type (JStr "join_group") then
         groupName <- lift (get json "groupName") ;;
         gs <- this_groups ;;
         isNew <- (if negb (map_has strict_eq gs groupName)
                   then set_groups (gs ++ [(groupName, set_add Nat.eqb [] res)]) ;; ret true
                   else set_groups (map_mutate strict_eq gs groupName
                                      (fun group => set_add Nat.eqb group res)) ;; ret false) ;;
         text <- JSON_stringify E (joined_group groupName) ;;
         send res text ;;
         substitution E groupName ;;
         console_log (UserJoinedGroup groupName) ;;
         if isNew
         then
           newGroupPayload <- JSON_stringify E (group_created groupName) ;;
           us <- this_users ;;
           forEach us (fun e => send (fst e) newGroupPayload)
         else ret tt
       else
         type <- lift (get json "type") ;;
         if strict_eq type (JStr "message") then
           to <- lift (get json "to") ;;
           content <- lift (get json "content") ;;
           gs <- this_groups ;;
           match map_get strict_eq gs to with
           | Some group =>
               us <- this_users ;;
               let sender := map_get Nat.eqb us res in
               payload <-
                 JSON_stringify E
                   (UMessage.message (sender_name sender) (sender_mobile sender) to content) ;;
               forEach group (fun ws => send ws payload)
           | None =>
               us <- this_users ;;
               match targetSocket us to with
               | Some target =>
                   let sender := map_get Nat.eqb us res in
                   text <-
                     JSON_stringify E
                       (UMessage.message (sender_name sender) (sender_mobile sender)
                          to content) ;;
                   send target text
               | None => ret tt
               end
           end
         else ret tt)
    (fun e => console_log (ErrorProcessingMessage e)).

(** No [try] here either. *)
Definition close (res : socket) : M unit :=
  console_log WebSocketClosed ;;
  us <- this_users ;;
  match map_get Nat.eqb us res with
  | Some user =>
      userLeftPayload <- JSON_stringify E (user_left (mobile user)) ;;
      forEach us (fun e =>
        if negb (Nat.eqb (fst e) res) then send (fst e) userLeftPayload else ret tt)
  | None => ret tt
  end ;;
  us <- this_users ;;
  set_users (map_delete Nat.eqb us res) ;;
  gs <- this_groups ;;
  set_groups (map (fun g => (fst g, set_delete Nat.eqb (snd g) res)) gs).

End Handlers.
End Server.

(* ===================================================================== *)
(** * Frames of the README's protocol, for concrete runs *)
(* ===================================================================== *)

Module Frames.
Import JS UMessage.
Local Open Scope string_scope.

Definition register_frame (name mobile : jsval) : jsval :=
  JObj [("type", JStr "register"); ("name", name); ("mobile", mobile)].

Definition join_group_frame (groupName : jsval) : jsval :=
  JObj [("type", JStr "join_group"); ("groupName", groupName)].

Definition message_frame (to content : jsval) : jsval :=
  JObj [("type", JStr "message"); ("to", to); ("content", content)].

(** The JSON text of a string and of an object whose values are given as
    JSON text. *)
Definition quoted (s : string) : string :=
  String "034"%char (s ++ String "034"%char EmptyString).

Fixpoint members_text (props : list (string * string)) : string :=
  match props with
  | [] => EmptyString
  | [(k, v)] => quoted k ++ ":" ++ v
  | (k, v) :: rest => quoted k ++ ":" ++ v ++ "," ++ members_text rest
  end.

Definition object_text (props : list (string * string)) : string :=
  "{" ++ members_text props ++ "}".

Definition register_text (name mobile : string) : string :=
  object_text [("type", quoted "register"); ("name", name); ("mobile", mobile)].

Definition join_group_text (groupName : string) : string :=
  object_text [("type", quoted "join_group"); ("groupName", groupName)].

Definition message_text (to content : string) : string :=
  object_text [("type", quoted "message"); ("to", quoted to); ("content", quoted content)].

Definition register_alice : string := register_text (quoted "Alice") (quoted "111").
Definition register_bob : string := register_text (quoted "Bob") (quoted "222").
Definition register_carol : string := register_text (quoted "Carol") (quoted "general").
Definition register_unprintable : string :=
  register_text (object_text [("toString", "1")]) (quoted "333").
Definition join_general : string := join_group_text (quoted "general").
Definition join_unprintable : string := join_group_text (object_text [("toString", "1")]).
Definition message_to_bob : string := message_text "222" "hi".
Definition message_to_general : string := message_text "general" "hello".
Definition truncated : string := "{" ++ quoted "type" ++ ":".

(** A finite stand-in for [JSON.parse]: the texts above with their values,
    and a syntax error for every other text. *)
Definition samples : list (string * jsval) :=
  [(register_alice, register_frame (JStr "Alice") (JStr "111"));
   (register_bob, register_frame (JStr "Bob") (JStr "222"));
   (register_carol, register_frame (JStr "Carol") (JStr "general"));
   (register_unprintable, register_frame (JObj [("toString", JNum 1)]) (JStr "333"));
   (join_general, join_group_frame (JStr "general"));
   (join_unprintable, join_group_frame (JObj [("toString", JNum 1)]));
   (message_to_bob, message_frame (JStr "222") (JStr "hi"));
   (message_to_general, message_frame (JStr "general") (JStr "hello"));
   ("null", JNull);
   ("{}", JObj [])].

Definition sample_parse (text : string) : option jsval := map_get String.eqb samples text.

(** A stand-in for an engine with very little stack: an array within an
    array is already too deep to serialise or to join, and an object with an
    own [toString] property has no callable [toString]. *)
Definition array_in_array (v : jsval) : bool :=
  match v with
  | JArr (JArr _ :: _) => true
  | _ => false
  end.

Definition sample_engine : engine :=
  {| stringify_overflows := fun p => existsb array_in_array (client_values p);
     ToString_throws := fun v =>
       match v with
       | JObj props =>
           if existsb (fun kv => String.eqb (fst kv) "toString") props
           then Some TypeError else None
       | _ => if array_in_array v then Some RangeError else None
       end |}.

Definition alice : socket := 1.
Definition bob : socket := 2.
Definition carol : socket := 3.

(** Alice and Bob register, then Alice creates the group [general]. *)
Definition scenario : list call :=
  [Message alice register_alice; Message bob register_bob; Message alice join_general].

End Frames.

(* ===================================================================== *)
(** * Runs from any state, and who is in the registries *)
(* ===================================================================== *)

Module Runs.
Import JS UMessage.

(** The connection a call comes from. *)
Definition caller (c : call) : socket :=
  match c with
  | Open ws => ws
  | Message ws _ => ws
  | Close ws => ws
  end.

(** The calls served one after the other on an object in state [st]. *)
Definition serve_from (JSON_parse : string -> option jsval) (E : engine) (st : uMessage)
    (calls : list call) : outcome unit * uMessage * list effect :=
  forEach calls (dispatch JSON_parse E) st.

(** [c] is in neither registry: no key of [users], member of no group. *)
Definition absent (c : socket) (st : uMessage) : Prop :=
  ~ In c (map fst (users st)) /\ Forall (fun g => ~ In c (snd g)) (groups st).

(** [c] is a member of the group that [groups.get(g)] returns. *)
Definition member_of (st : uMessage) (g : jsval) (c : socket) : Prop :=
  exists members, map_get strict_eq (groups st) g = Some members /\ In c members.

(** ** Traffic as the protocol has it: primitive fields only *)

(** The fields the router reads from a frame. *)
Definition fields : list string := ["name"; "mobile"; "groupName"; "to"; "content"].

Definition flat_frame (json : jsval) : bool :=
  match json with
  | JObj props => forallb (fun k => primitive (own_prop props k)) fields
  | _ => true
  end.

Definition flat_call (JSON_parse : string -> option jsval) (c : call) : bool :=
  match c with
  | Message _ raw =>
      match JSON_parse raw with
      | Some json => flat_frame json
      | None => true
      end
  | _ => true
  end.

(** Every stored name, mobile and group name is a primitive. *)
Definition flat_state (st : uMessage) : Prop :=
  Forall (fun e => primitive (name (snd e)) = true /\ primitive (mobile (snd e)) = true)
         (users st)
  /\ Forall (fun g => primitive (fst g) = true) (groups st).

End Runs.

(* ===================================================================== *)
(** * The uWebSockets app of the two server files *)
(* ===================================================================== *)

Module App.
Import JS UMessage.

(** The console lines of the server files themselves. *)
Inductive server_line : Type :=
| WebSocketConnected
| WebSocketBackpressure (bufferedAmount : Z).

Inductive server_effect : Type :=
| Router (e : effect)
| ServerConsole (l : server_line).

(** A handler of the app: the registries, the effects, normal or thrown. *)
Definition S : Type := uMessage -> outcome unit * uMessage * list server_effect.

(** A handler of the router, run inside the app. *)
Definition router (m : M unit) : S :=
  fun s => let '(r, s', t) := m s in (r, s', map Router t).

Definition server_log (l : server_line) : S :=
  fun s => (Normal tt, s, [ServerConsole l]).

Definition and_then (a b : S) : S := fun s =>
  match a s with
  | (Normal _, s1, t1) => let '(r, s2, t2) := b s1 in (r, s2, t1 ++ t2)
  | (Thrown e, s1, t1) => (Thrown e, s1, t1)
  end.

(** What uWebSockets calls the handlers with; [bufferedAmount] is what
    [res.getBufferedAmount()] returns in [drain]. *)
Inductive ws_event : Type :=
| WsOpen (res : socket)
| WsMessage (res : socket) (raw : string)
| WsDrain (res : socket) (bufferedAmount : Z)
| WsClose (res : socket).

Section Handlers.
Variable JSON_parse : string -> option jsval.
Variable E : engine.

(** server.js: [open], [message], [drain], [close], on the module-level maps. *)
Definition standalone (ev : ws_event) : S :=
  match ev with
  | WsOpen res => server_log WebSocketConnected
  | WsMessage res raw => router (Server.message JSON_parse E res raw)
  | WsDrain res bufferedAmount => server_log (WebSocketBackpressure bufferedAmount)
  | WsClose res => router (Server.close E res)
  end.

(** The server file that holds [chat = new uMessage()] and hands every
    call to it. *)
Definition delegating (ev : ws_event) : S :=
  match ev with
  | WsOpen res => and_then (server_log WebSocketConnected) (router (handleOpen res))
  | WsMessage res raw => router (handleMessage JSON_parse E res raw)
  | WsDrain res bufferedAmount => server_log (WebSocketBackpressure bufferedAmount)
  | WsClose res => router (handleClose E res)
  end.

End Handlers.

(** The events served in order, from empty registries. *)
Fixpoint handle_all (handle : ws_event -> S) (events : list ws_event) : S :=
  match events with
  | [] => fun s => (Normal tt, s, [])
  | ev :: rest => and_then (handle ev) (handle_all handle rest)
  end.

Definition run (handle : ws_event -> S) (events : list ws_event)
  : outcome unit * uMessage * list server_effect :=
  handle_all handle events new_uMessage.

(** The calls that reach the [uMessage] object. *)
Fixpoint calls_of (events : list ws_event) : list call :=
  match events with
  | [] => []
  | WsOpen res :: rest => Open res :: calls_of rest
  | WsMessage res raw :: rest => Message res raw :: calls_of rest
  | WsDrain _ _ :: rest => calls_of rest
  | WsClose res :: rest => Close res :: calls_of rest
  end.

(** The effects of the router among those of the app. *)
Fixpoint router_effects (t : list server_effect) : list effect :=
  match t with
  | [] => []
  | Router e :: t' => e :: router_effects t'
  | ServerConsole _ :: t' => router_effects t'
  end.

End App.

(* ===================================================================== *)
(** * Frames with an object where the protocol has a string *)
(* ===================================================================== *)

Module OddFrames.
Import JS UMessage.
Local Open Scope string_scope.

Definition an_object : jsval := JObj [("id", JNum 7)].

Definition join_object : string :=
  Frames.join_group_text (Frames.object_text [("id", "7")]).

Definition message_to_object : string :=
  Frames.object_text [("type", Frames.quoted "message");
                      ("to", Frames.object_text [("id", "7")]);
                      ("content", Frames.quoted "hello")].

(** The sample texts of [Frames], and these two. *)
Definition sample_parse (text : string) : option jsval :=
  map_get String.eqb
    ((join_object, Frames.join_group_frame an_object)
     :: (message_to_object, Frames.message_frame an_object (JStr "hello"))
     :: Frames.samples) text.

End OddFrames.

(* ===================================================================== *)
(** * Frames with a value too deep for the sample engine *)
(* ===================================================================== *)

Module DeepFrames.
Import JS UMessage.
Local Open Scope string_scope.

Definition deep : jsval := JArr [JArr []].

Definition register_deep : string :=
  Frames.register_text (Frames.quoted "Dave") "[[]]".

Definition join_deep : string := Frames.join_group_text "[[]]".

Definition message_deep : string :=
  Frames.object_text [("type", Frames.quoted "message");
                      ("to", Frames.quoted "222");
                      ("content", "[[]]")].

(** The sample texts of [Frames], and these three. *)
Definition sample_parse (text : string) : option jsval :=
  map_get String.eqb
    ((register_deep, Frames.register_frame (JStr "Dave") deep)
     :: (join_deep, Frames.join_group_frame deep)
     :: (message_deep, Frames.message_frame (JStr "222") deep)
     :: Frames.samples) text.

Definition dave : socket := 4.

End DeepFrames.

(* ===================================================================== *)
(** * Facts about the containers *)
(* ===================================================================== *)

Module ContainerFacts.
Import JS.

Lemma strict_eq_eq (a b : jsval) : strict_eq a b = true -> a = b.
Proof.
  destruct a, b; simpl; try discriminate; intros H; try reflexivity.
  - apply Bool.eqb_prop in H. now subst.
  - apply Z.eqb_eq in H. now subst.
  - apply String.eqb_eq in H. now subst.
Qed.

Lemma strict_eq_str (a : jsval) (s : string) :
  strict_eq a (JStr s) = true <-> a = JStr s.
Proof.
  split.
  - apply strict_eq_eq.
  - intros ->. simpl. apply String.eqb_refl.
Qed.

Section SocketMaps.
Context {V : Type}.
Implicit Types (m : list (nat * V)) (k : nat) (v : V).

Lemma map_get_None m k : map_get Nat.eqb m k = None <-> ~ In k (map fst m).
Proof.
  induction m as [|[k' v'] m IH]; simpl.
  - tauto.
  - destruct (Nat.eqb_spec k' k) as [->|Hne].
    + split; [discriminate | intros H; exfalso; apply H; now left].
    + rewrite IH. tauto.
Qed.

Lemma map_get_In m k v : map_get Nat.eqb m k = Some v -> In (k, v) m.
Proof.
  induction m as [|[k' v'] m IH]; simpl; [discriminate|].
  destruct (Nat.eqb_spec k' k) as [->|Hne].
  - intros [= ->]. now left.
  - intros H. right. now apply IH.
Qed.

Lemma map_has_In m k : map_has Nat.eqb m k = true <-> In k (map fst m).
Proof.
  unfold map_has. destruct (map_get Nat.eqb m k) eqn:E.
  - split; [intros _ | reflexivity].
    apply map_get_In in E. now apply (in_map fst) in E.
  - split; [discriminate|]. intros H. now apply map_get_None in E.
Qed.

Lemma map_set_others m k v :
  filter (fun e => negb (Nat.eqb (fst e) k)) (map_set Nat.eqb m k v)
  = filter (fun e => negb (Nat.eqb (fst e) k)) m.
Proof.
  induction m as [|[k' v'] m IH]; simpl.
  - now rewrite Nat.eqb_refl.
  - destruct (Nat.eqb k' k) eqn:E; simpl; rewrite E; simpl; [reflexivity|].
    now rewrite IH.
Qed.

Lemma map_set_keys m k v :
  map fst (map_set Nat.eqb m k v)
  = if map_has Nat.eqb m k then map fst m else map fst m ++ [k].
Proof.
  unfold map_has. induction m as [|[k' v'] m IH]; simpl; [reflexivity|].
  destruct (Nat.eqb_spec k' k) as [->|Hne]; simpl; [reflexivity|].
  rewrite IH. now destruct (map_get Nat.eqb m k).
Qed.

Lemma map_set_NoDup m k v :
  NoDup (map fst m) -> NoDup (map fst (map_set Nat.eqb m k v)).
Proof.
  intros H. rewrite map_set_keys. destruct (map_has Nat.eqb m k) eqn:E; [exact H|].
  apply NoDup_app; [exact H | repeat constructor; simpl; tauto |].
  intros x Hx [<-|[]]. apply map_has_In in Hx. congruence.
Qed.

Lemma map_get_set m k v : map_get Nat.eqb (map_set Nat.eqb m k v) k = Some v.
Proof.
  induction m as [|[k' v'] m IH]; simpl.
  - now rewrite Nat.eqb_refl.
  - destruct (Nat.eqb k' k) eqn:E; simpl; rewrite E; [reflexivity | exact IH].
Qed.

Lemma map_delete_incl m k x : In x (map fst (map_delete Nat.eqb m k)) -> In x (map fst m).
Proof.
  induction m as [|[k' v'] m IH]; simpl; [tauto|].
  destruct (Nat.eqb k' k); simpl; [tauto|]. intros [H|H]; [now left | right; now apply IH].
Qed.

Lemma map_delete_NoDup m k :
  NoDup (map fst m) -> NoDup (map fst (map_delete Nat.eqb m k)).
Proof.
  induction m as [|[k' v'] m IH]; simpl; [trivial|].
  intros H. inversion H as [|? ? Hnin Hnd]; subst.
  destruct (Nat.eqb k' k); simpl; [exact Hnd|].
  constructor; [|now apply IH]. intros Hin. apply Hnin. now apply map_delete_incl in Hin.
Qed.

Lemma map_delete_absent m k :
  NoDup (map fst m) -> ~ In k (map fst (map_delete Nat.eqb m k)).
Proof.
  induction m as [|[k' v'] m IH]; simpl; [tauto|].
  intros H. inversion H as [|? ? Hnin Hnd]; subst.
  destruct (Nat.eqb_spec k' k) as [->|Hne]; simpl; [exact Hnin|].
  intros [Heq|Hin]; [contradiction | now apply IH].
Qed.



Lemma map_delete_keys m k :
  map fst (map_delete Nat.eqb m k) = set_delete Nat.eqb (map fst m) k.
Proof.
  induction m as [|[k' v'] m IH]; simpl; [reflexivity|].
  destruct (Nat.eqb k' k); simpl; [reflexivity | now rewrite IH].
Qed.

End SocketMaps.

Section Mutation.
Context {K V : Type} (keq : K -> K -> bool).
Implicit Types (m : list (K * V)) (k : K) (f : V -> V).

Lemma map_mutate_keys m k f : map fst (map_mutate keq m k f) = map fst m.
Proof.
  induction m as [|[k' v'] m IH]; simpl; [reflexivity|].
  destruct (keq k' k); simpl; [reflexivity | now rewrite IH].
Qed.

Lemma map_mutate_fixed m k f v :
  map_get keq m k = Some v -> f v = v -> map_mutate keq m k f = m.
Proof.
  induction m as [|[k' v'] m IH]; simpl; [reflexivity|].
  destruct (keq k' k).
  - intros [= ->] ->. reflexivity.
  - intros Hget Hf. now rewrite IH.
Qed.

Lemma map_get_mutate m k f v :
  map_get keq m k = Some v -> map_get keq (map_mutate keq m k f) k = Some (f v).
Proof.
  induction m as [|[k' v'] m IH]; simpl; [discriminate|].
  destruct (keq k' k) eqn:E; simpl; rewrite E.
  - now intros [= ->].
  - exact IH.
Qed.

Lemma map_get_last m k v :
  map_get keq m k = None -> keq k k = true -> map_get keq (m ++ [(k, v)]) k = Some v.
Proof.
  intros Hnone Hrefl. induction m as [|[k' v'] m IH]; simpl in *.
  - now rewrite Hrefl.
  - destruct (keq k' k); [discriminate | now apply IH].
Qed.

End Mutation.

Section SocketSets.
Implicit Types (s : list nat) (x : nat).

Lemma set_has_In s x : set_has Nat.eqb s x = true <-> In x s.
Proof.
  induction s as [|y s IH]; simpl; [split; [discriminate | tauto]|].
  destruct (Nat.eqb_spec y x) as [->|Hne].
  - split; [now left | reflexivity].
  - rewrite IH. split; [now right | intros [H|H]; [contradiction | exact H]].
Qed.

Lemma set_add_member s x : In x s -> set_add Nat.eqb s x = s.
Proof.
  intros H. unfold set_add. apply set_has_In in H. now rewrite H.
Qed.

Lemma set_add_In s x : In x (set_add Nat.eqb s x).
Proof.
  unfold set_add. destruct (set_has Nat.eqb s x) eqn:E.
  - now apply set_has_In.
  - apply in_or_app. right. now left.
Qed.

Lemma set_add_NoDup s x : NoDup s -> NoDup (set_add Nat.eqb s x).
Proof.
  intros H. unfold set_add. destruct (set_has Nat.eqb s x) eqn:E; [exact H|].
  apply NoDup_app; [exact H | repeat constructor; simpl; tauto |].
  intros y Hy [<-|[]]. apply set_has_In in Hy. congruence.
Qed.

Lemma set_delete_incl s x y : In y (set_delete Nat.eqb s x) -> In y s.
Proof.
  induction s as [|z s IH]; simpl; [tauto|].
  destruct (Nat.eqb z x); simpl; [tauto|]. intros [H|H]; [now left | right; now apply IH].
Qed.

Lemma set_delete_NoDup s x : NoDup s -> NoDup (set_delete Nat.eqb s x).
Proof.
  induction s as [|z s IH]; simpl; [trivial|].
  intros H. inversion H as [|? ? Hnin Hnd]; subst.
  destruct (Nat.eqb z x); [exact Hnd|].
  constructor; [|now apply IH]. intros Hin. apply Hnin. now apply set_delete_incl in Hin.
Qed.

Lemma set_delete_absent s x : NoDup s -> ~ In x (set_delete Nat.eqb s x).
Proof.
  induction s as [|z s IH]; simpl; [tauto|].
  intros H. inversion H as [|? ? Hnin Hnd]; subst.
  destruct (Nat.eqb_spec z x) as [->|Hne]; [exact Hnin|].
  simpl. intros [Heq|Hin]; [contradiction | now apply IH].
Qed.

End SocketSets.

End ContainerFacts.

(* ===================================================================== *)
(** * What each handler does *)
(* ===================================================================== *)

Module HandlerFacts.
Import JS UMessage ContainerFacts.

Lemma forEach_send {X} (xs : list X) (f : X -> socket) (p : payload) (st : uMessage) :
  forEach xs (fun e => send (f e) p) st = (Normal tt, st, map (fun e => Send (f e) p) xs).
Proof.
  induction xs as [|x xs IH]; simpl; [reflexivity|].
  unfold bind, send at 1. now rewrite IH.
Qed.

Lemma forEach_send_if {X} (xs : list X) (c : X -> bool) (f : X -> socket)
      (p : payload) (st : uMessage) :
  forEach xs (fun e => if c e then send (f e) p else ret tt) st
  = (Normal tt, st, map (fun e => Send (f e) p) (filter c xs)).
Proof.
  induction xs as [|x xs IH]; simpl; [reflexivity|].
  unfold bind. destruct (c x); simpl; now rewrite IH.
Qed.

Lemma forEach_app {X} (xs ys : list X) (f : X -> M unit) (st : uMessage) :
  forEach (xs ++ ys) f st = (forEach xs f ;; forEach ys f) st.
Proof.
  revert st. induction xs as [|x xs IH]; intros st; simpl.
  - unfold bind, ret. now destruct (forEach ys f st) as [[r s] t].
  - unfold bind in *. destruct (f x st) as [[[[]|e] s1] t1]; [|reflexivity].
    rewrite IH.
    destruct (forEach xs f s1) as [[[[]|e] s2] t2]; [|reflexivity].
    destruct (forEach ys f s2) as [[r s3] t3]. now rewrite app_assoc.
Qed.

(** A payload without a nested value is serialised on every engine. *)
Lemma flat_is_serialised (E : engine) (p : payload) :
  flat p = true -> stringify_throws E p = false.
Proof. intros H. unfold stringify_throws. now rewrite H. Qed.

Lemma primitive_is_printed (E : engine) (v : jsval) :
  primitive v = true -> template_throws E v = None.
Proof. intros H. unfold template_throws. now rewrite H. Qed.

Section Engine.
Variable E : engine.

(** A [register] frame: the entry is stored and acknowledged first; the log
    line, the two snapshots and the broadcast follow as far as the engine
    converts and serialises their values. *)
Lemma _handleRegister_run (ws : socket) (props : list (string * jsval)) (st : uMessage) :
  let u := {| name := own_prop props "name"; mobile := own_prop props "mobile" |} in
  let st' := registered_state ws u st in
  let ack := [Send ws (registered true)] in
  let logged := ack ++ [Console (UserRegistered (name u) (mobile u))] in
  let listed := logged ++ [Send ws (group_list (map_keys (groups st)))] in
  let shown := listed ++ [Send ws (user_list (map snd (others ws st)))] in
  _handleRegister E ws (JObj props) st =
  match template_throws E (name u) with
  | Some e => (Thrown e, st', ack)
  | None =>
  match template_throws E (mobile u) with
  | Some e => (Thrown e, st', ack)
  | None =>
  if stringify_throws E (group_list (map_keys (groups st)))
  then (Thrown RangeError, st', logged)
  else if stringify_throws E (user_list (map snd (others ws st)))
  then (Thrown RangeError, st', listed)
  else if stringify_throws E (user_joined u)
  then (Thrown RangeError, st', shown)
  else (Normal tt, st',
        shown ++ map (fun e => Send (fst e) (user_joined u)) (others ws st))
  end end.
Proof.
  intros u st' ack logged listed shown.
  unfold _handleRegister, bind, lift, substitution, JSON_stringify, others in *; simpl.
  destruct (template_throws E (own_prop props "name")); simpl; [reflexivity|].
  destruct (template_throws E (own_prop props "mobile")); simpl; [reflexivity|].
  destruct (stringify_throws E (group_list _)); simpl; [reflexivity|].
  rewrite !map_set_others.
  destruct (stringify_throws E (user_list _)); simpl; [reflexivity|].
  destruct (stringify_throws E (user_joined _)); simpl; [reflexivity|].
  rewrite forEach_send_if. simpl. rewrite !map_set_others. reflexivity.
Qed.

(** A [join_group] frame: the member is stored first. *)
Lemma _handleJoinGroup_run (ws : socket) (props : list (string * jsval)) (st : uMessage) :
  let g := own_prop props "groupName" in
  let st' := joined_state ws g st in
  let confirmed := [Send ws (joined_group g)] in
  let logged := confirmed ++ [Console (UserJoinedGroup g)] in
  _handleJoinGroup E ws (JObj props) st =
  if stringify_throws E (joined_group g) then (Thrown RangeError, st', [])
  else
  match template_throws E g with
  | Some e => (Thrown e, st', confirmed)
  | None =>
  if map_has strict_eq (groups st) g then (Normal tt, st', logged)
  else if stringify_throws E (group_created g) then (Thrown RangeError, st', logged)
  else (Normal tt, st', logged ++ map (fun e => Send (fst e) (group_created g)) (users st))
  end.
Proof.
  intros g st' confirmed logged.
  unfold _handleJoinGroup, bind, lift, substitution, JSON_stringify, joined_state in *; simpl.
  fold g. destruct (map_has strict_eq (groups st) g); simpl.
  - destruct (stringify_throws E (joined_group g)); simpl; [reflexivity|].
    destruct (template_throws E g); reflexivity.
  - destruct (stringify_throws E (joined_group g)); simpl; [reflexivity|].
    destruct (template_throws E g); simpl; [reflexivity|].
    destruct (stringify_throws E (group_created g)); simpl; [reflexivity|].
    now rewrite forEach_send.
Qed.

(** A [message] frame: serialised once, when there is a group or a target. *)
Lemma _handleChatMessage_run (ws : socket) (props : list (string * jsval)) (st : uMessage) :
  let to := own_prop props "to" in
  let sender := registered_as st ws in
  let p := message (sender_name sender) (sender_mobile sender) to (own_prop props "content") in
  _handleChatMessage E ws (JObj props) st =
  match map_get strict_eq (groups st) to, targetSocket (users st) to with
  | None, None => (Normal tt, st, [])
  | _, _ =>
      if stringify_throws E p then (Thrown RangeError, st, [])
      else (Normal tt, st, map (fun d => Send d p) (destinations st to))
  end.
Proof.
  intros to sender p. subst p sender.
  unfold _handleChatMessage, bind, lift, JSON_stringify, destinations, registered_as; simpl.
  fold to.
  destruct (map_get strict_eq (groups st) to) as [group|]; simpl.
  - destruct (stringify_throws E _); simpl; [reflexivity|].
    now rewrite (forEach_send group (fun d => d)).
  - destruct (targetSocket (users st) to); simpl; [|reflexivity].
    destruct (stringify_throws E _); reflexivity.
Qed.

(** A disconnect: what [JSON.stringify] throws leaves the handler before
    anything is removed. *)
Lemma handleClose_run (ws : socket) (st : uMessage) :
  handleClose E ws st =
  match registered_as st ws with
  | Some u =>
      if stringify_throws E (user_left (mobile u))
      then (Thrown RangeError, st, [Console WebSocketClosed])
      else (Normal tt, closed_state ws st,
            Console WebSocketClosed
            :: map (fun e => Send (fst e) (user_left (mobile u))) (others ws st))
  | None => (Normal tt, closed_state ws st, [Console WebSocketClosed])
  end.
Proof.
  unfold handleClose, bind, JSON_stringify, registered_as, others, closed_state; simpl.
  destruct (map_get Nat.eqb (users st) ws) as [u|]; simpl; [|reflexivity].
  destruct (stringify_throws E (user_left (mobile u))); simpl; [reflexivity|].
  rewrite forEach_send_if. simpl. now rewrite app_nil_r.
Qed.

Variable JSON_parse : string -> option jsval.

Lemma handleMessage_run (ws : socket) (text : string) (st : uMessage) :
  handleMessage JSON_parse E ws text st =
  match JSON_parse text with
  | None => caught text (Thrown SyntaxError, st, [])
  | Some json =>
      match get json "type" with
      | inl e => caught text (Thrown e, st, [])
      | inr type =>
          if strict_eq type (JStr "register") then caught text (_handleRegister E ws json st)
          else if strict_eq type (JStr "join_group")
               then caught text (_handleJoinGroup E ws json st)
          else if strict_eq type (JStr "message")
               then caught text (_handleChatMessage E ws json st)
          else caught text (Normal tt, st, [])
      end
  end.
Proof.
  unfold handleMessage, try_catch, bind, parse, caught; simpl.
  destruct (JSON_parse text) as [json|]; simpl; [|reflexivity].
  destruct (get json "type") as [e|type]; simpl; [reflexivity|].
  destruct (strict_eq type (JStr "register")).
  { destruct (_handleRegister E ws json st) as [[[[]|e] s] t]; reflexivity. }
  destruct (strict_eq type (JStr "join_group")).
  { destruct (_handleJoinGroup E ws json st) as [[[[]|e] s] t]; reflexivity. }
  destruct (strict_eq type (JStr "message")).
  { destruct (_handleChatMessage E ws json st) as [[[[]|e] s] t]; reflexivity. }
  reflexivity.
Qed.

End Engine.

End HandlerFacts.

(* ===================================================================== *)
(** * Runs of the server and the registries' invariant *)
(* ===================================================================== *)

Module RunFacts.
Import JS UMessage Runs ContainerFacts HandlerFacts.

Lemma typed_frame_is_object (json type : jsval) (k : string) :
  get json "type" = inr type -> strict_eq type (JStr k) = true ->
  exists props, json = JObj props.
Proof.
  intros Hget Heq. apply strict_eq_str in Heq. subst type.
  destruct json; simpl in Hget; try discriminate. now exists props.
Qed.

(** A frame whose [type] was read as a string is an object: name its
    properties. *)
Ltac frame_object Htype :=
  match type of Htype with
  | get ?json "type" = inr (JStr ?k) =>
      let props := fresh "props" in
      destruct (typed_frame_is_object json _ k Htype (String.eqb_refl _)) as [props ->]
  end.

Lemma caught_normal text r : result_of (caught text r) = Normal tt.
Proof. now destruct r as [[[[]|e] s] t]. Qed.

Lemma caught_state text r : state_of (caught text r) = state_of r.
Proof. now destruct r as [[[[]|e] s] t]. Qed.

Lemma step_group_names st st' :
  step st st' -> exists later, map_keys (groups st') = map_keys (groups st) ++ later.
Proof.
  intros [|ws u|ws g|ws]; simpl; unfold map_keys.
  - exists []. now rewrite app_nil_r.
  - exists []. now rewrite app_nil_r.
  - destruct (map_has strict_eq (groups st) g).
    + exists []. now rewrite map_mutate_keys, app_nil_r.
    + exists [g]. now rewrite map_app.
  - exists []. rewrite map_map, app_nil_r. reflexivity.
Qed.

Lemma step_well_formed st st' : well_formed st -> step st st' -> well_formed st'.
Proof.
  intros [Hu Hg] Hstep. destruct Hstep as [|ws u|ws g|ws]; split; simpl; trivial.
  - now apply map_set_NoDup.
  - destruct (map_has strict_eq (groups st) g).
    + clear Hu. induction (groups st) as [|[k members] gs IH]; simpl; [constructor|].
      inversion Hg as [|? ? Hm Hrest]; subst.
      destruct (strict_eq k g); constructor; simpl in *; auto using set_add_NoDup.
    + apply Forall_app. split; [exact Hg|].
      repeat constructor; simpl; tauto.
  - now apply map_delete_NoDup.
  - apply Forall_map. eapply Forall_impl; [|exact Hg].
    intros [k members]; simpl. apply set_delete_NoDup.
Qed.

Lemma group_members_NoDup st g members :
  well_formed st -> map_get strict_eq (groups st) g = Some members -> NoDup members.
Proof.
  intros [_ Hwf]. rewrite Forall_forall in Hwf.
  induction (groups st) as [|[k ms] gs IH]; simpl; [discriminate|].
  destruct (strict_eq k g).
  - intros [= <-]. apply (Hwf (k, ms)). now left.
  - apply IH. intros x Hx. apply Hwf. now right.
Qed.

Section Engine.
Variable JSON_parse : string -> option jsval.
Variable E : engine.

(** Whatever is thrown afterwards, a [register] frame has stored its entry,
    a [join_group] frame its member, and a [message] frame nothing. *)
Lemma _handleRegister_state ws props st :
  state_of (_handleRegister E ws (JObj props) st)
  = registered_state ws {| name := own_prop props "name";
                           mobile := own_prop props "mobile" |} st.
Proof.
  rewrite _handleRegister_run. cbv zeta.
  repeat match goal with
         | |- context [match ?b with Some _ => _ | None => _ end] => destruct b
         | |- context [if ?b then _ else _] => destruct b
         end; reflexivity.
Qed.

Lemma _handleJoinGroup_state ws props st :
  state_of (_handleJoinGroup E ws (JObj props) st)
  = joined_state ws (own_prop props "groupName") st.
Proof.
  rewrite _handleJoinGroup_run. cbv zeta.
  destruct (stringify_throws E _); [reflexivity|].
  destruct (template_throws E _); [reflexivity|].
  destruct (map_has _ _ _); [reflexivity|].
  destruct (stringify_throws E _); reflexivity.
Qed.

Lemma _handleChatMessage_state ws props st :
  state_of (_handleChatMessage E ws (JObj props) st) = st.
Proof.
  rewrite _handleChatMessage_run. cbv zeta.
  destruct (map_get _ _ _); [|destruct (targetSocket _ _)];
    try (destruct (stringify_throws E _)); reflexivity.
Qed.

Lemma handleMessage_normal ws text st :
  result_of (handleMessage JSON_parse E ws text st) = Normal tt.
Proof.
  rewrite handleMessage_run.
  destruct (JSON_parse text) as [json|]; [|apply caught_normal].
  destruct (get json "type") as [e|type]; [apply caught_normal|].
  repeat match goal with |- context [if ?b then _ else _] => destruct b end;
    apply caught_normal.
Qed.

(** The states a frame can lead to. *)
Lemma handleMessage_states ws text st :
  let st' := state_of (handleMessage JSON_parse E ws text st) in
  st' = st \/ (exists u, st' = registered_state ws u st)
  \/ (exists g, st' = joined_state ws g st).
Proof.
  cbv zeta. rewrite handleMessage_run.
  destruct (JSON_parse text) as [json|]; [|now left].
  destruct (get json "type") as [e|type] eqn:Hget; [now left|].
  destruct (strict_eq type (JStr "register")) eqn:E1.
  { destruct (typed_frame_is_object _ _ _ Hget E1) as [props ->].
    rewrite caught_state, _handleRegister_state. right. left. eexists. reflexivity. }
  destruct (strict_eq type (JStr "join_group")) eqn:E2.
  { destruct (typed_frame_is_object _ _ _ Hget E2) as [props ->].
    rewrite caught_state, _handleJoinGroup_state. right. right. eexists. reflexivity. }
  destruct (strict_eq type (JStr "message")) eqn:E3.
  { destruct (typed_frame_is_object _ _ _ Hget E3) as [props ->].
    rewrite caught_state, _handleChatMessage_state. now left. }
  now left.
Qed.

Lemma handleMessage_step ws text st :
  step st (state_of (handleMessage JSON_parse E ws text st)).
Proof.
  destruct (handleMessage_states ws text st) as [->|[[u ->]|[g ->]]]; constructor.
Qed.

(** A disconnect either removes the connection or, thrown out of, nothing. *)
Lemma handleClose_states ws st :
  (result_of (handleClose E ws st) = Normal tt
   /\ state_of (handleClose E ws st) = closed_state ws st)
  \/ (result_of (handleClose E ws st) = Thrown RangeError
      /\ state_of (handleClose E ws st) = st).
Proof.
  rewrite handleClose_run. destruct (registered_as st ws) as [u|]; [|now left].
  destruct (stringify_throws E _); [now right | now left].
Qed.

Lemma register_state ws text json n m st :
  JSON_parse text = Some json ->
  get json "type" = inr (JStr "register") ->
  get json "name" = inr n ->
  get json "mobile" = inr m ->
  state_of (handleMessage JSON_parse E ws text st)
  = registered_state ws {| name := n; mobile := m |} st.
Proof.
  intros Hparse Htype Hn Hm. frame_object Htype.
  simpl in Hn, Hm. injection Hn as Hn. injection Hm as Hm.
  rewrite handleMessage_run, Hparse, Htype. simpl.
  now rewrite caught_state, _handleRegister_state, Hn, Hm.
Qed.

Lemma join_group_state ws text json g st :
  JSON_parse text = Some json ->
  get json "type" = inr (JStr "join_group") ->
  get json "groupName" = inr g ->
  state_of (handleMessage JSON_parse E ws text st) = joined_state ws g st.
Proof.
  intros Hparse Htype Hg. frame_object Htype.
  simpl in Hg. injection Hg as Hg.
  rewrite handleMessage_run, Hparse, Htype. simpl.
  now rewrite caught_state, _handleJoinGroup_state, Hg.
Qed.

Lemma dispatch_step c st : step st (state_of (dispatch JSON_parse E c st)).
Proof.
  destruct c as [ws|ws raw|ws]; simpl.
  - apply step_none.
  - apply handleMessage_step.
  - destruct (handleClose_states ws st) as [[_ ->]|[_ ->]]; constructor.
Qed.

(** What every step keeps, every run keeps: a run is a sequence of steps,
    cut short where a handler throws. *)
Lemma serve_from_keeps (P : uMessage -> Prop) :
  (forall st st', P st -> step st st' -> P st') ->
  forall calls st, P st -> P (state_of (serve_from JSON_parse E st calls)).
Proof.
  intros Hstep. unfold serve_from.
  induction calls as [|c calls IH]; intros st HP; simpl; [exact HP|].
  pose proof (dispatch_step c st) as Hc. unfold bind.
  destruct (dispatch JSON_parse E c st) as [[[[]|e] s1] t1]; unfold state_of in *; simpl in *.
  - specialize (IH s1 (Hstep _ _ HP Hc)).
    now destruct (forEach calls (dispatch JSON_parse E) s1) as [[r s2] t2].
  - now apply (Hstep st).
Qed.

(** A run continued: from where the first part ended, unless that part was
    cut short. *)
Lemma serve_app calls more :
  serve JSON_parse E (calls ++ more) =
  match serve JSON_parse E calls with
  | (Normal _, s, t) =>
      (result_of (serve_from JSON_parse E s more),
       state_of (serve_from JSON_parse E s more),
       t ++ effects_of (serve_from JSON_parse E s more))
  | (Thrown e, s, t) => (Thrown e, s, t)
  end.
Proof.
  unfold serve, serve_from. rewrite forEach_app. unfold bind.
  destruct (forEach calls (dispatch JSON_parse E) new_uMessage) as [[[[]|e] s] t];
    [|reflexivity].
  now destruct (forEach more (dispatch JSON_parse E) s) as [[r2 s2] t2].
Qed.

Lemma state_after_app_cases calls more :
  state_after JSON_parse E (calls ++ more) = state_after JSON_parse E calls
  \/ state_after JSON_parse E (calls ++ more)
     = state_of (serve_from JSON_parse E (state_after JSON_parse E calls) more).
Proof.
  unfold state_after. rewrite serve_app.
  destruct (serve JSON_parse E calls) as [[[[]|e] s] t]; simpl; [now right | now left].
Qed.

Lemma serve_from_group_names calls st :
  exists later,
    map_keys (groups (state_of (serve_from JSON_parse E st calls)))
    = map_keys (groups st) ++ later.
Proof.
  apply (serve_from_keeps
           (fun s => exists later, map_keys (groups s) = map_keys (groups st) ++ later)).
  - intros s s' [l1 H1] Hs. destruct (step_group_names _ _ Hs) as [l2 H2].
    exists (l1 ++ l2). now rewrite H2, H1, app_assoc.
  - exists []. now rewrite app_nil_r.
Qed.

Lemma state_after_app calls more :
  exists later,
    map_keys (groups (state_after JSON_parse E (calls ++ more)))
    = map_keys (groups (state_after JSON_parse E calls)) ++ later.
Proof.
  destruct (state_after_app_cases calls more) as [-> | ->].
  - exists []. now rewrite app_nil_r.
  - apply serve_from_group_names.
Qed.

Lemma state_after_well_formed calls : well_formed (state_after JSON_parse E calls).
Proof.
  apply (serve_from_keeps well_formed).
  - intros st st'. apply step_well_formed.
  - split; simpl; constructor.
Qed.

End Engine.

End RunFacts.

(* ===================================================================== *)
(** * Deliveries *)
(* ===================================================================== *)

Module DeliveryFacts.
Import JS UMessage ContainerFacts HandlerFacts RunFacts.

Lemma sends_app t1 t2 : sends (t1 ++ t2) = sends t1 ++ sends t2.
Proof.
  induction t1 as [|[ws p|l] t1 IH]; simpl; [reflexivity| |exact IH].
  now rewrite IH.
Qed.

Lemma sends_broadcast {X} (xs : list X) (f : X -> socket) (p : payload) :
  sends (map (fun e => Send (f e) p) xs) = map (fun e => (f e, p)) xs.
Proof. induction xs as [|x xs IH]; simpl; [reflexivity | now rewrite IH]. Qed.

Lemma received_app c t1 t2 : received c (t1 ++ t2) = received c t1 ++ received c t2.
Proof. unfold received. now rewrite sends_app, filter_app, map_app. Qed.

Lemma received_console c l t : received c (Console l :: t) = received c t.
Proof. reflexivity. Qed.

Lemma received_send c ws p t :
  received c (Send ws p :: t) = (if Nat.eqb ws c then [p] else []) ++ received c t.
Proof. unfold received. simpl. now destruct (Nat.eqb ws c). Qed.

(** A broadcast over distinct connections reaches each of them once. *)
Lemma received_broadcast {X} (xs : list X) (f : X -> socket) (p : payload) (c : socket) :
  NoDup (map f xs) ->
  received c (map (fun e => Send (f e) p) xs)
  = if set_has Nat.eqb (map f xs) c then [p] else [].
Proof.
  induction xs as [|x xs IH]; simpl; [reflexivity|].
  intros H. inversion H as [|? ? Hnin Hnd]; subst.
  rewrite received_send, (IH Hnd).
  destruct (Nat.eqb_spec (f x) c) as [Heq|Hne]; simpl; [|reflexivity].
  destruct (set_has Nat.eqb (map f xs) c) eqn:E; [|reflexivity].
  apply set_has_In in E. rewrite <- Heq in E. contradiction.
Qed.

Lemma others_keys ws st :
  map fst (others ws st) = filter (fun s => negb (Nat.eqb s ws)) (map fst (users st)).
Proof.
  unfold others. induction (users st) as [|[s u] us IH]; simpl; [reflexivity|].
  destruct (Nat.eqb s ws); simpl; now rewrite IH.
Qed.


Lemma others_In ws st s :
  In s (map fst (others ws st)) <-> s <> ws /\ In s (map fst (users st)).
Proof.
  rewrite others_keys, filter_In.
  destruct (Nat.eqb_spec s ws); simpl; split; intros [H1 H2]; try split;
    trivial; try discriminate; contradiction.
Qed.





Lemma targetSocket_registered us to t :
  targetSocket us to = Some t -> In t (map fst us).
Proof.
  induction us as [|[s u] us IH]; simpl; [discriminate|].
  destruct (strict_eq (mobile u) to); [intros [= ->]; now left | intros H; right; auto].
Qed.

Section Engine.
Variable JSON_parse : string -> option jsval.
Variable E : engine.

(** A [message] frame whose payload is serialised goes to its destinations. *)
Lemma message_run ws text json to content st :
  JSON_parse text = Some json ->
  get json "type" = inr (JStr "message") ->
  get json "to" = inr to ->
  get json "content" = inr content ->
  let sender := registered_as st ws in
  let p := message (sender_name sender) (sender_mobile sender) to content in
  stringify_throws E p = false ->
  handleMessage JSON_parse E ws text st
  = (Normal tt, st, Console (Received text) :: map (fun d => Send d p) (destinations st to)).
Proof.
  intros Hparse Htype Hto Hcontent sender p Hp. frame_object Htype.
  simpl in Hto, Hcontent. injection Hto as Hto. injection Hcontent as Hcontent.
  rewrite handleMessage_run, Hparse, Htype. simpl.
  rewrite _handleChatMessage_run. cbv zeta. rewrite Hto, Hcontent.
  fold sender. fold p. rewrite Hp. unfold destinations.
  destruct (map_get strict_eq (groups st) to); [reflexivity|].
  destruct (targetSocket (users st) to); reflexivity.
Qed.

(** Serialised or not, a [message] frame sends nothing but its payload, and
    to its destinations only. *)
Lemma message_sends ws text json to content st :
  JSON_parse text = Some json ->
  get json "type" = inr (JStr "message") ->
  get json "to" = inr to ->
  get json "content" = inr content ->
  let sender := registered_as st ws in
  let p := message (sender_name sender) (sender_mobile sender) to content in
  let r := handleMessage JSON_parse E ws text st in
  result_of r = Normal tt /\ state_of r = st /\
  (sends (effects_of r) = map (fun d => (d, p)) (destinations st to)
   \/ sends (effects_of r) = []).
Proof.
  intros Hparse Htype Hto Hcontent sender p r.
  destruct (stringify_throws E p) eqn:Hp.
  - frame_object Htype.
    simpl in Hto, Hcontent. injection Hto as Hto. injection Hcontent as Hcontent.
    unfold r. rewrite handleMessage_run, Hparse, Htype. simpl.
    rewrite _handleChatMessage_run. cbv zeta. rewrite Hto, Hcontent.
    fold sender. fold p. rewrite Hp. unfold destinations.
    destruct (map_get strict_eq (groups st) to); [now repeat split; right|].
    destruct (targetSocket (users st) to); now repeat split; right.
  - unfold r. rewrite (message_run ws text json to content st) by assumption.
    unfold result_of, state_of, effects_of. simpl.
    rewrite (sends_broadcast (destinations st to) (fun d => d)). now repeat split; left.
Qed.

(** A disconnect returns normally exactly when the departure can be
    announced: the connection is not registered, or its [user_left] payload
    is serialised. *)
Lemma handleClose_returns ws st :
  result_of (handleClose E ws st) = Normal tt <->
  (forall u, registered_as st ws = Some u ->
             stringify_throws E (user_left (mobile u)) = false).
Proof.
  rewrite handleClose_run. destruct (registered_as st ws) as [u|].
  - destruct (stringify_throws E (user_left (mobile u))) eqn:Hs; simpl; split.
    + discriminate.
    + intros H. specialize (H u eq_refl). congruence.
    + now intros _ u' [= <-].
    + reflexivity.
  - split; [intros _ u; discriminate | reflexivity].
Qed.

Lemma handleClose_returned ws st :
  result_of (handleClose E ws st) = Normal tt ->
  handleClose E ws st
  = (Normal tt, closed_state ws st,
     Console WebSocketClosed
     :: match registered_as st ws with
        | Some u => map (fun e => Send (fst e) (user_left (mobile u))) (others ws st)
        | None => []
        end).
Proof.
  rewrite handleClose_run. destruct (registered_as st ws) as [u|]; [|reflexivity].
  destruct (stringify_throws E _); [discriminate | reflexivity].
Qed.

(** A run whose last call, a disconnect, has been served. *)
Lemma state_after_close calls c :
  result_of (serve JSON_parse E (calls ++ [Close c])) = Normal tt ->
  result_of (serve JSON_parse E calls) = Normal tt
  /\ result_of (handleClose E c (state_after JSON_parse E calls)) = Normal tt
  /\ state_after JSON_parse E (calls ++ [Close c])
     = closed_state c (state_after JSON_parse E calls).
Proof.
  unfold state_after. rewrite serve_app.
  destruct (serve JSON_parse E calls) as [[[[]|e] s] t]; [|discriminate].
  unfold Runs.serve_from, result_of, state_of. simpl. unfold bind.
  pose proof (handleClose_returned c s) as Hc. unfold result_of in Hc.
  destruct (handleClose E c s) as [[[[]|e] s1] t1]; [|discriminate].
  intros _. specialize (Hc eq_refl). injection Hc as -> _. now repeat split.
Qed.

End Engine.

End DeliveryFacts.

(* ===================================================================== *)
(** * Properties of the router *)
(* ===================================================================== *)

Import JS UMessage Runs ContainerFacts HandlerFacts RunFacts DeliveryFacts.











(** C6.  A frame that does not parse, or parses to something that is not
    one of the three kinds of frame, is logged and dropped: nothing is sent
    to any connection, both registries stay as they are, and the handler
    returns normally (the exception, if any, ends in the error log). *)
Theorem malformed_frame_dropped (JSON_parse : string -> option jsval) (E : engine)
    (st : uMessage) (ws : socket) (text : string) :
  well_formed_frame JSON_parse text = false ->
  let r := handleMessage JSON_parse E ws text st in
  result_of r = Normal tt /\
  state_of r = st /\
  sends (effects_of r) = [] /\
  effects_of r
  = Console (Received text)
    :: match JSON_parse text with
       | None => [Console (ErrorProcessingMessage SyntaxError)]
       | Some json =>
           match get json "type" with
           | inl e => [Console (ErrorProcessingMessage e)]
           | inr _ => []
           end
       end.
Proof.
  intros Hbad r. unfold well_formed_frame, recognised in Hbad. unfold r.
  rewrite handleMessage_run.
  destruct (JSON_parse text) as [json|]; [|now repeat split].
  destruct (get json "type") as [e|type]; [now repeat split|].
  apply orb_false_iff in Hbad. destruct Hbad as [Hbad H3].
  apply orb_false_iff in Hbad. destruct Hbad as [H1 H2].
  rewrite H1, H2, H3. now repeat split.
Qed.

Lemma malformed_frame_dropped_witness :
  let st := state_after Frames.sample_parse Frames.sample_engine Frames.scenario in
  let r := handleMessage Frames.sample_parse Frames.sample_engine
             Frames.alice Frames.truncated st in
  result_of r = Normal tt /\
  state_of r = st /\
  sends (effects_of r) = [] /\
  effects_of r
  = [Console (Received Frames.truncated); Console (ErrorProcessingMessage SyntaxError)].
Proof.
  exact (malformed_frame_dropped Frames.sample_parse Frames.sample_engine
           (state_after Frames.sample_parse Frames.sample_engine Frames.scenario)
           Frames.alice Frames.truncated eq_refl).
Defined.



(** C8.  Joining is idempotent.  A [join_group] frame from a connection that
    is already a member of the named group leaves the group registry, and so
    that group's member set and its size, as it was; and after a first join
    under a name that compares equal to itself (a string, number, boolean or
    null) the connection is such a member, so that a second join changes
    nothing. *)
Theorem join_group_idempotent (JSON_parse : string -> option jsval) (E : engine)
    (st : uMessage) (ws : socket) (text : string) (json g : jsval) :
  JSON_parse text = Some json ->
  get json "type" = inr (JStr "join_group") ->
  get json "groupName" = inr g ->
  let st1 := state_of (handleMessage JSON_parse E ws text st) in
  let st2 := state_of (handleMessage JSON_parse E ws text st1) in
  (forall members,
      map_get strict_eq (groups st) g = Some members -> In ws members ->
      groups st1 = groups st)
  /\ (strict_eq g g = true ->
      (exists members,
          map_get strict_eq (groups st1) g = Some members /\ In ws members /\
          map_get strict_eq (groups st2) g = Some members)
      /\ groups st2 = groups st1).
Proof.
  intros Hparse Htype Hg st1 st2.
  assert (Hmember : forall s members,
             map_get strict_eq (groups s) g = Some members -> In ws members ->
             groups (joined_state ws g s) = groups s).
  { intros s members Hget Hin. unfold joined_state, map_has. simpl. rewrite Hget.
    apply (map_mutate_fixed strict_eq _ _ _ members Hget). now apply set_add_member. }
  assert (H1 : st1 = joined_state ws g st) by now apply join_group_state with (json := json).
  assert (H2 : st2 = joined_state ws g st1) by now apply join_group_state with (json := json).
  split.
  - intros members Hget Hin. rewrite H1. now apply Hmember with members.
  - intros Hrefl.
    assert (Hnow : exists members,
               map_get strict_eq (groups st1) g = Some members /\ In ws members).
    { rewrite H1. unfold joined_state, map_has. simpl.
      destruct (map_get strict_eq (groups st) g) as [members|] eqn:Hget.
      - exists (set_add Nat.eqb members ws). split; [|apply set_add_In].
        exact (map_get_mutate strict_eq _ _ (fun group => set_add Nat.eqb group ws)
                 members Hget).
      - exists [ws]. split; [|now left]. now apply map_get_last. }
    destruct Hnow as (members & Hget & Hin).
    assert (Hsame : groups st2 = groups st1) by (rewrite H2; now apply Hmember with members).
    split; [|exact Hsame]. exists members. now rewrite Hsame.
Qed.

Lemma join_group_idempotent_witness :
  let st := state_after Frames.sample_parse Frames.sample_engine
              [Message Frames.alice Frames.register_alice] in
  let st1 := state_of (handleMessage Frames.sample_parse Frames.sample_engine
                         Frames.alice Frames.join_general st) in
  let st2 := state_of (handleMessage Frames.sample_parse Frames.sample_engine
                         Frames.alice Frames.join_general st1) in
  groups st1 = [(JStr "general", [Frames.alice])] /\ groups st2 = groups st1.
Proof.
  split; [reflexivity|].
  exact (proj2 (proj2 (join_group_idempotent Frames.sample_parse Frames.sample_engine
           (state_after Frames.sample_parse Frames.sample_engine
              [Message Frames.alice Frames.register_alice])
           Frames.alice Frames.join_general _ _ eq_refl eq_refl eq_refl) eq_refl)).
Defined.

(** C9.  The group names only grow: no call removes a name from the group
    registry, along any run the names known at some point are a prefix of
    the names known later, and the disconnect cleanup, when the handler
    gets to it (it returns normally), keeps every group, with [ws] taken
    out of its members, also when that leaves it empty. *)
Theorem group_names_only_grow (JSON_parse : string -> option jsval) (E : engine) :
  (forall st c, exists later,
      map_keys (groups (state_of (dispatch JSON_parse E c st)))
      = map_keys (groups st) ++ later)
  /\ (forall calls more, exists later,
        map_keys (groups (state_after JSON_parse E (calls ++ more)))
        = map_keys (groups (state_after JSON_parse E calls)) ++ later)
  /\ (forall st ws,
        map_keys (groups (state_of (handleClose E ws st))) = map_keys (groups st)
        /\ (result_of (handleClose E ws st) = Normal tt ->
            forall g members,
              In (g, members) (groups st) ->
              In (g, set_delete Nat.eqb members ws)
                 (groups (state_of (handleClose E ws st))))).
Proof.
  split; [|split].
  - intros st c. apply step_group_names, dispatch_step.
  - apply state_after_app.
  - intros st ws. split.
    + destruct (handleClose_states E ws st) as [[_ ->]|[_ ->]]; [|reflexivity].
      unfold closed_state, map_keys. simpl. now rewrite map_map.
    + intros Hret g members Hin. rewrite (handleClose_returned E ws st Hret).
      unfold state_of, closed_state. simpl.
      apply (in_map (fun e => (fst e, set_delete Nat.eqb (snd e) ws))) in Hin. exact Hin.
Qed.

(** C10.  While the group registry holds a name [g] with no member, a
    [message] frame addressed to [g] is delivered to nobody, also when a
    registered connection has [g] as its identity: the group is looked up
    first and an empty group is a group. *)
Theorem empty_group_shadows_identity (JSON_parse : string -> option jsval) (E : engine)
    (st : uMessage) (ws owner : socket) (text : string) (json g content : jsval) :
  JSON_parse text = Some json ->
  get json "type" = inr (JStr "message") ->
  get json "to" = inr g ->
  get json "content" = inr content ->
  map_get strict_eq (groups st) g = Some [] ->
  first_with_identity (users st) g owner ->
  let r := handleMessage JSON_parse E ws text st in
  sends (effects_of r) = [] /\ (forall c, received c (effects_of r) = []) /\ state_of r = st.
Proof.
  intros Hparse Htype Hto Hcontent Hempty _ r.
  destruct (message_sends JSON_parse E ws text json g content st
              Hparse Htype Hto Hcontent) as (_ & Hst & Hsends).
  fold r in Hst, Hsends. unfold destinations in Hsends. rewrite Hempty in Hsends.
  assert (Hnone : sends (effects_of r) = []) by (destruct Hsends; assumption).
  split; [exact Hnone|]. split; [|exact Hst].
  intros c. unfold received. now rewrite Hnone.
Qed.

Lemma empty_group_shadows_identity_witness :
  let st := state_after Frames.sample_parse Frames.sample_engine
              [Message Frames.carol Frames.register_carol;
               Message Frames.alice Frames.join_general; Close Frames.alice] in
  let r := handleMessage Frames.sample_parse Frames.sample_engine
             Frames.bob Frames.message_to_general st in
  targetSocket (users st) (JStr "general") = Some Frames.carol /\
  groups st = [(JStr "general", [])] /\
  sends (effects_of r) = [].
Proof.
  split; [reflexivity|]. split; [reflexivity|].
  refine (proj1 (empty_group_shadows_identity Frames.sample_parse Frames.sample_engine
           (state_after Frames.sample_parse Frames.sample_engine
              [Message Frames.carol Frames.register_carol;
               Message Frames.alice Frames.join_general; Close Frames.alice])
           Frames.bob Frames.carol Frames.message_to_general _ _ _
           eq_refl eq_refl eq_refl eq_refl eq_refl _)).
  exists [], {| name := JStr "Carol"; mobile := JStr "general" |}, [].
  repeat split. constructor.
Defined.

(* ===================================================================== *)
(** * server.js and lib/uMessage.js are the same router *)
(* ===================================================================== *)

Lemma server_message_is_handleMessage (JSON_parse : string -> option jsval) (E : engine)
    (res : socket) (raw : string) :
  Server.message JSON_parse E res raw = handleMessage JSON_parse E res raw.
Proof. reflexivity. Qed.

Lemma server_close_is_handleClose (E : engine) (res : socket) :
  Server.close E res = handleClose E res.
Proof. reflexivity. Qed.

(* ===================================================================== *)
(** * Frames whose fields are not converted or not serialised *)
(* ===================================================================== *)

(** The log line of [_handleRegister] sits between the acknowledgement and
    the snapshots.  When the conversion of [name] or of [mobile] throws, it
    throws there: the connection is in the registry and has its
    acknowledgement, and nothing else is sent. *)
Lemma register_log_line_throws (JSON_parse : string -> option jsval) (E : engine)
    (st : uMessage) (c : socket) (text : string) (json n m : jsval) (e : exn) :
  JSON_parse text = Some json ->
  get json "type" = inr (JStr "register") ->
  get json "name" = inr n ->
  get json "mobile" = inr m ->
  template_throws E n = Some e
  \/ (template_throws E n = None /\ template_throws E m = Some e) ->
  handleMessage JSON_parse E c text st
  = (Normal tt, registered_state c {| name := n; mobile := m |} st,
     [Console (Received text); Send c (registered true);
      Console (ErrorProcessingMessage e)]).
Proof.
  intros Hparse Htype Hn Hm Hthrows.
  frame_object Htype.
  simpl in Hn, Hm. injection Hn as Hn. injection Hm as Hm.
  rewrite handleMessage_run, Hparse, Htype. simpl.
  rewrite _handleRegister_run. cbv zeta. simpl. rewrite Hn, Hm.
  destruct Hthrows as [-> | [-> ->]]; reflexivity.
Qed.

(** The same for the log line of [_handleJoinGroup], which sits between the
    confirmation and the [group_created] broadcast. *)
Lemma join_group_log_line_throws (JSON_parse : string -> option jsval) (E : engine)
    (st : uMessage) (c : socket) (text : string) (json g : jsval) (e : exn) :
  JSON_parse text = Some json ->
  get json "type" = inr (JStr "join_group") ->
  get json "groupName" = inr g ->
  stringify_throws E (joined_group g) = false ->
  template_throws E g = Some e ->
  handleMessage JSON_parse E c text st
  = (Normal tt, joined_state c g st,
     [Console (Received text); Send c (joined_group g);
      Console (ErrorProcessingMessage e)]).
Proof.
  intros Hparse Htype Hg Hser Hthrows.
  frame_object Htype.
  simpl in Hg. injection Hg as Hg.
  rewrite handleMessage_run, Hparse, Htype. simpl.
  rewrite _handleJoinGroup_run. cbv zeta. rewrite Hg, Hser, Hthrows. reflexivity.
Qed.

Example register_unprintable_run :
  handleMessage Frames.sample_parse Frames.sample_engine
    Frames.carol Frames.register_unprintable
    (state_after Frames.sample_parse Frames.sample_engine Frames.scenario)
  = (Normal tt,
     {| users := [(Frames.alice, {| name := JStr "Alice"; mobile := JStr "111" |});
                  (Frames.bob, {| name := JStr "Bob"; mobile := JStr "222" |});
                  (Frames.carol, {| name := JObj [("toString", JNum 1)];
                                    mobile := JStr "333" |})];
        groups := [(JStr "general", [Frames.alice])] |},
     [Console (Received Frames.register_unprintable);
      Send Frames.carol (registered true);
      Console (ErrorProcessingMessage TypeError)]).
Proof. reflexivity. Qed.

(** A mobile too deep for the engine: the registration is stored and
    acknowledged, the log line throws; the disconnect of that connection
    then throws out of [handleClose] and removes nothing. *)
Example register_deep_run :
  handleMessage DeepFrames.sample_parse Frames.sample_engine
    DeepFrames.dave DeepFrames.register_deep
    (state_after DeepFrames.sample_parse Frames.sample_engine Frames.scenario)
  = (Normal tt,
     {| users := [(Frames.alice, {| name := JStr "Alice"; mobile := JStr "111" |});
                  (Frames.bob, {| name := JStr "Bob"; mobile := JStr "222" |});
                  (DeepFrames.dave, {| name := JStr "Dave"; mobile := DeepFrames.deep |})];
        groups := [(JStr "general", [Frames.alice])] |},
     [Console (Received DeepFrames.register_deep);
      Send DeepFrames.dave (registered true);
      Console (ErrorProcessingMessage RangeError)]).
Proof. reflexivity. Qed.

Example close_deep_run :
  let calls := Frames.scenario ++ [Message DeepFrames.dave DeepFrames.register_deep] in
  let st := state_after DeepFrames.sample_parse Frames.sample_engine calls in
  handleClose Frames.sample_engine DeepFrames.dave st
  = (Thrown RangeError, st, [Console WebSocketClosed]).
Proof. reflexivity. Qed.

(** A content too deep for the engine: the frame is dropped. *)
Example message_deep_run :
  let st := state_after DeepFrames.sample_parse Frames.sample_engine Frames.scenario in
  handleMessage DeepFrames.sample_parse Frames.sample_engine
    Frames.alice DeepFrames.message_deep st
  = (Normal tt, st,
     [Console (Received DeepFrames.message_deep);
      Console (ErrorProcessingMessage RangeError)]).
Proof. reflexivity. Qed.

(* ===================================================================== *)
(** * The scenario of the README's protocol, run *)
(* ===================================================================== *)

(** Alice and Bob register, Alice creates [general], Alice writes to Bob's
    mobile, Bob disconnects. *)
Example scenario_run :
  sends (effects_of (serve Frames.sample_parse Frames.sample_engine
           (Frames.scenario ++ [Message Frames.alice Frames.message_to_bob;
                                Close Frames.bob])))
  = [(Frames.alice, registered true);
     (Frames.alice, group_list []);
     (Frames.alice, user_list []);
     (Frames.bob, registered true);
     (Frames.bob, group_list []);
     (Frames.bob, user_list [{| name := JStr "Alice"; mobile := JStr "111" |}]);
     (Frames.alice, user_joined {| name := JStr "Bob"; mobile := JStr "222" |});
     (Frames.alice, joined_group (JStr "general"));
     (Frames.alice, group_created (JStr "general"));
     (Frames.bob, group_created (JStr "general"));
     (Frames.bob, message (JStr "Alice") (JStr "111") (JStr "222") (JStr "hi"));
     (Frames.alice, user_left (JStr "222"))].
Proof. reflexivity. Qed.

(** After it only Alice is registered, and the group Alice created is still
    there. *)
Example scenario_state :
  state_after Frames.sample_parse Frames.sample_engine
    (Frames.scenario ++ [Message Frames.alice Frames.message_to_bob; Close Frames.bob])
  = {| users := [(Frames.alice, {| name := JStr "Alice"; mobile := JStr "111" |})];
       groups := [(JStr "general", [Frames.alice])] |}.
Proof. reflexivity. Qed.

(* ===================================================================== *)
(** * More facts about the registries *)
(* ===================================================================== *)

Module RegistryFacts.
Import JS UMessage Runs ContainerFacts HandlerFacts RunFacts DeliveryFacts.

Section SocketMaps.
Context {V : Type}.
Implicit Types (m : list (nat * V)) (k d : nat) (v : V).

Lemma map_get_set_other m k d v :
  d <> k -> map_get Nat.eqb (map_set Nat.eqb m k v) d = map_get Nat.eqb m d.
Proof.
  intros Hne. induction m as [|[k' v'] m IH]; simpl.
  - destruct (Nat.eqb_spec k d); [congruence | reflexivity].
  - destruct (Nat.eqb_spec k' k) as [->|Hk]; simpl.
    + destruct (Nat.eqb_spec k d); [congruence | reflexivity].
    + now rewrite IH.
Qed.

Lemma map_delete_unknown m k : ~ In k (map fst m) -> map_delete Nat.eqb m k = m.
Proof.
  induction m as [|[k' v'] m IH]; simpl; [reflexivity|].
  intros H. destruct (Nat.eqb_spec k' k) as [->|Hk]; [tauto|].
  f_equal. apply IH. tauto.
Qed.

Lemma map_delete_keeps m k d :
  d <> k -> In d (map fst m) -> In d (map fst (map_delete Nat.eqb m k)).
Proof.
  intros Hne. induction m as [|[k' v'] m IH]; simpl; [tauto|].
  destruct (Nat.eqb_spec k' k) as [->|Hk]; simpl.
  - intros [H|H]; [congruence | exact H].
  - intros [H|H]; [now left | right; now apply IH].
Qed.

End SocketMaps.

Section SocketSets.
Implicit Types (s : list nat) (x y : nat).

Lemma set_delete_unknown s x : ~ In x s -> set_delete Nat.eqb s x = s.
Proof.
  induction s as [|y s IH]; simpl; [reflexivity|].
  intros H. destruct (Nat.eqb_spec y x) as [->|Hy]; [tauto|].
  f_equal. apply IH. tauto.
Qed.

Lemma set_delete_keeps s x y : x <> y -> In x s -> In x (set_delete Nat.eqb s y).
Proof.
  intros Hne. induction s as [|z s IH]; simpl; [tauto|].
  destruct (Nat.eqb_spec z y) as [->|Hz].
  - intros [H|H]; [congruence | exact H].
  - intros [H|H]; [now left | right; now apply IH].
Qed.

Lemma set_add_keeps s x y : In x s -> In x (set_add Nat.eqb s y).
Proof.
  intros H. unfold set_add. destruct (set_has Nat.eqb s y); [exact H|].
  apply in_or_app. now left.
Qed.

Lemma set_add_incl s x y : In x (set_add Nat.eqb s y) -> x = y \/ In x s.
Proof.
  unfold set_add. destruct (set_has Nat.eqb s y); [now right|].
  intros H. apply in_app_or in H. destruct H as [H|[H|[]]]; [now right | now left].
Qed.

End SocketSets.

Section Keys.
Context {K V : Type} (keq : K -> K -> bool).
Implicit Types (m : list (K * V)) (k : K).

Lemma map_get_app m l k v :
  map_get keq m k = Some v -> map_get keq (m ++ l) k = Some v.
Proof.
  induction m as [|[k' v'] m IH]; simpl; [discriminate|].
  destruct (keq k' k); [trivial | exact IH].
Qed.

Lemma map_get_mutate_any m k k' f v :
  map_get keq m k' = Some v ->
  exists v', map_get keq (map_mutate keq m k f) k' = Some v' /\ (v' = v \/ v' = f v).
Proof.
  induction m as [|[k0 v0] m IH]; simpl; [discriminate|].
  destruct (keq k0 k) eqn:E; simpl.
  - destruct (keq k0 k'); [intros [= ->]; eauto | eauto].
  - destruct (keq k0 k'); [intros [= ->]; eauto | exact IH].
Qed.

Lemma map_get_map_values m k (h : V -> V) :
  map_get keq (map (fun e => (fst e, h (snd e))) m) k = option_map h (map_get keq m k).
Proof.
  induction m as [|[k' v'] m IH]; simpl; [reflexivity|].
  destruct (keq k' k); [reflexivity | exact IH].
Qed.

Lemma map_get_entry m k v : map_get keq m k = Some v -> exists k', In (k', v) m.
Proof.
  induction m as [|[k' v'] m IH]; simpl; [discriminate|].
  destruct (keq k' k).
  - intros [= ->]. exists k'. now left.
  - intros H. destruct (IH H) as [k0 H0]. exists k0. now right.
Qed.

End Keys.

(** A value that is not identical to itself is an object or an array; no
    stored key and no registered mobile is identical to it. *)
Lemma no_group_under_object (gs : list (jsval * list socket)) (g : jsval) :
  strict_eq g g = false -> map_get strict_eq gs g = None.
Proof.
  intros Hg. induction gs as [|[k members] gs IH]; simpl; [reflexivity|].
  destruct (strict_eq k g) eqn:E; [|exact IH].
  pose proof (strict_eq_eq _ _ E) as Hk. subst k. congruence.
Qed.

Lemma no_target_under_object (us : list (socket * user)) (to : jsval) :
  strict_eq to to = false -> targetSocket us to = None.
Proof.
  intros Hto. induction us as [|[s u] us IH]; simpl; [reflexivity|].
  destruct (strict_eq (mobile u) to) eqn:E; [|exact IH].
  pose proof (strict_eq_eq _ _ E) as Hk. rewrite Hk in E. congruence.
Qed.

Lemma received_unreached {X} (xs : list X) (f : X -> socket) (p : payload) (c : socket) :
  ~ In c (map f xs) -> received c (map (fun e => Send (f e) p) xs) = [].
Proof.
  induction xs as [|x xs IH]; simpl; [reflexivity|].
  intros H. rewrite received_send, IH by tauto.
  destruct (Nat.eqb_spec (f x) c); [tauto | reflexivity].
Qed.

End RegistryFacts.

(* ===================================================================== *)
(** * Further properties of the router *)
(* ===================================================================== *)

Import RegistryFacts.

(** X1.  Which handlers throw.  [handleMessage] and [handleOpen] never do:
    whatever the text of a frame and whatever the state, the exception
    raised while the frame is processed (a syntax error, a [null] frame, a
    field that is not converted or not serialised) is caught.  [handleClose],
    which has no [try], throws exactly when the connection is registered
    with a mobile whose [user_left] payload [JSON.stringify] does not
    serialise; then only the console line is written, nobody is notified and
    both registries stay as they are, the connection still in them. *)
Theorem only_handleClose_throws (JSON_parse : string -> option jsval) (E : engine) :
  (forall st ws text, result_of (handleMessage JSON_parse E ws text st) = Normal tt)
  /\ (forall st ws, handleOpen ws st = (Normal tt, st, []))
  /\ (forall st ws,
        handleClose E ws st
        = match registered_as st ws with
          | Some u =>
              if stringify_throws E (user_left (mobile u))
              then (Thrown RangeError, st, [Console WebSocketClosed])
              else (Normal tt, closed_state ws st,
                    Console WebSocketClosed
                    :: map (fun e => Send (fst e) (user_left (mobile u))) (others ws st))
          | None => (Normal tt, closed_state ws st, [Console WebSocketClosed])
          end).
Proof.
  split; [|split].
  - intros st ws text. apply handleMessage_normal.
  - reflexivity.
  - intros st ws. apply handleClose_run.
Qed.

(** X2.  A [register] frame stores the connection's [{ name, mobile }] under
    the connection, also when the log line then throws: a later lookup
    returns it, a connection that was registered keeps its place in the
    registry (re-registering overwrites, it adds no second entry), a new one
    goes last, every other connection's entry and every group stay as they
    were. *)
Theorem register_stores_user (JSON_parse : string -> option jsval) (E : engine)
    (st : uMessage) (c : socket) (text : string) (json n m : jsval) :
  JSON_parse text = Some json ->
  get json "type" = inr (JStr "register") ->
  get json "name" = inr n ->
  get json "mobile" = inr m ->
  let st' := state_of (handleMessage JSON_parse E c text st) in
  registered_as st' c = Some {| name := n; mobile := m |}
  /\ (forall d, d <> c -> registered_as st' d = registered_as st d)
  /\ map fst (users st')
     = (if is_registered st c then map fst (users st) else map fst (users st) ++ [c])
  /\ groups st' = groups st.
Proof.
  intros Hparse Htype Hn Hm st'.
  assert (Hst : st' = registered_state c {| name := n; mobile := m |} st)
    by now apply register_state with (json := json).
  rewrite Hst. unfold registered_as, is_registered. simpl.
  split; [apply map_get_set|]. split; [|split; [apply map_set_keys | reflexivity]].
  intros d Hd. now apply map_get_set_other.
Qed.

Lemma register_stores_user_witness :
  let st := state_after Frames.sample_parse Frames.sample_engine Frames.scenario in
  let st' := state_of (handleMessage Frames.sample_parse Frames.sample_engine
                         Frames.alice Frames.register_unprintable st) in
  registered_as st' Frames.alice
  = Some {| name := JObj [("toString", JNum 1)]; mobile := JStr "333" |}
  /\ map fst (users st') = [Frames.alice; Frames.bob].
Proof.
  pose proof (register_stores_user Frames.sample_parse Frames.sample_engine
                (state_after Frames.sample_parse Frames.sample_engine Frames.scenario)
                Frames.alice Frames.register_unprintable _ _ _
                eq_refl eq_refl eq_refl eq_refl) as H.
  exact (conj (proj1 H) (proj1 (proj2 (proj2 H)))).
Defined.

(** X3.  Register, then be written to.  After [c] has registered a mobile
    [m] that no group is named after and no other registered connection
    carries, a [message] frame addressed to [m] (whose payload
    [JSON.stringify] serialises, as it does every payload of strings), from
    whatever connection, is delivered to [c] and to nobody else. *)
Theorem registered_user_is_reachable (JSON_parse : string -> option jsval) (E : engine)
    (st : uMessage) (c ws : socket) (text1 text2 : string)
    (json1 json2 n m content : jsval) :
  JSON_parse text1 = Some json1 ->
  get json1 "type" = inr (JStr "register") ->
  get json1 "name" = inr n ->
  get json1 "mobile" = inr m ->
  JSON_parse text2 = Some json2 ->
  get json2 "type" = inr (JStr "message") ->
  get json2 "to" = inr m ->
  get json2 "content" = inr content ->
  strict_eq m m = true ->
  map_get strict_eq (groups st) m = None ->
  Forall (fun e => fst e <> c -> strict_eq (mobile (snd e)) m = false) (users st) ->
  let st1 := state_of (handleMessage JSON_parse E c text1 st) in
  let sender := registered_as st1 ws in
  let p := message (sender_name sender) (sender_mobile sender) m content in
  stringify_throws E p = false ->
  let r := handleMessage JSON_parse E ws text2 st1 in
  sends (effects_of r) = [(c, p)].
Proof.
  intros Hp1 Ht1 Hn Hm Hp2 Ht2 Hto Hcontent Hrefl Hnogroup Hunique st1 sender p Hp r.
  assert (Hst : st1 = registered_state c {| name := n; mobile := m |} st)
    by now apply register_state with (json := json1).
  unfold r.
  rewrite (message_run JSON_parse E ws text2 json2 m content st1 Hp2 Ht2 Hto Hcontent Hp).
  unfold effects_of. simpl. fold sender. fold p.
  assert (Hdest : destinations st1 m = [c]).
  { unfold destinations. rewrite Hst. simpl. rewrite Hnogroup.
    assert (Ht : targetSocket (map_set Nat.eqb (users st) c {| name := n; mobile := m |}) m
                 = Some c).
    { clear -Hrefl Hunique. induction (users st) as [|[k v] us IH]; simpl.
      - now rewrite Hrefl.
      - inversion Hunique as [|? ? Hk Hrest]; subst. simpl in Hk.
        destruct (Nat.eqb_spec k c) as [->|Hne]; simpl.
        + now rewrite Hrefl.
        + rewrite (Hk Hne). now apply IH. }
    now rewrite Ht. }
  rewrite Hdest. reflexivity.
Qed.

Lemma registered_user_is_reachable_witness :
  let st := state_after Frames.sample_parse Frames.sample_engine
              [Message Frames.alice Frames.register_alice] in
  let st1 := state_of (handleMessage Frames.sample_parse Frames.sample_engine
                         Frames.bob Frames.register_bob st) in
  let r := handleMessage Frames.sample_parse Frames.sample_engine
             Frames.alice Frames.message_to_bob st1 in
  sends (effects_of r)
  = [(Frames.bob, message (JStr "Alice") (JStr "111") (JStr "222") (JStr "hi"))].
Proof.
  refine (registered_user_is_reachable Frames.sample_parse Frames.sample_engine
            (state_after Frames.sample_parse Frames.sample_engine
               [Message Frames.alice Frames.register_alice])
            Frames.bob Frames.alice Frames.register_bob Frames.message_to_bob
            _ _ _ _ _ eq_refl eq_refl eq_refl eq_refl eq_refl eq_refl eq_refl eq_refl
            eq_refl eq_refl _ eq_refl).
  repeat constructor.
Defined.

(** X4.  Join, then receive.  After [c] has joined a group under a name
    that is identical to itself (a string, a number, a boolean, [null], or
    the [undefined] of a frame without [groupName]), a [message] frame
    addressed to that name (whose payload [JSON.stringify] serialises, as it
    does every payload of strings), from whatever connection, reaches [c]
    exactly once; [c] need not be registered. *)
Theorem group_member_receives (JSON_parse : string -> option jsval) (E : engine)
    (calls : list call) (c ws : socket) (text1 text2 : string)
    (json1 json2 g content : jsval) :
  JSON_parse text1 = Some json1 ->
  get json1 "type" = inr (JStr "join_group") ->
  get json1 "groupName" = inr g ->
  JSON_parse text2 = Some json2 ->
  get json2 "type" = inr (JStr "message") ->
  get json2 "to" = inr g ->
  get json2 "content" = inr content ->
  strict_eq g g = true ->
  let st := state_after JSON_parse E calls in
  let st1 := state_of (handleMessage JSON_parse E c text1 st) in
  let sender := registered_as st ws in
  let p := message (sender_name sender) (sender_mobile sender) g content in
  stringify_throws E p = false ->
  let r := handleMessage JSON_parse E ws text2 st1 in
  member_of st1 g c /\ received c (effects_of r) = [p].
Proof.
  intros Hp1 Ht1 Hg Hp2 Ht2 Hto Hcontent Hrefl st st1 sender p Hp r.
  assert (Hst : st1 = joined_state c g st) by now apply join_group_state with (json := json1).
  assert (Hwf : well_formed st1).
  { rewrite Hst. eapply step_well_formed; [apply state_after_well_formed | apply step_join]. }
  assert (Hmem : member_of st1 g c).
  { rewrite Hst. unfold member_of, joined_state, map_has. simpl. fold st.
    destruct (map_get strict_eq (groups st) g) as [members|] eqn:Hget.
    - exists (set_add Nat.eqb members c). split; [|apply set_add_In].
      exact (map_get_mutate strict_eq _ _ (fun group => set_add Nat.eqb group c)
               members Hget).
    - exists [c]. split; [|now left]. now apply map_get_last. }
  split; [exact Hmem|].
  destruct Hmem as (members & Hget & Hin).
  assert (Hsender : registered_as st1 ws = sender) by now rewrite Hst.
  unfold r.
  rewrite (message_run JSON_parse E ws text2 json2 g content st1 Hp2 Ht2 Hto Hcontent);
    rewrite Hsender; [|exact Hp].
  unfold effects_of. simpl. rewrite received_console.
  unfold destinations. rewrite Hget. fold sender. fold p.
  rewrite (received_broadcast members (fun d => d) _ c); rewrite map_id.
  - apply set_has_In in Hin. now rewrite Hin.
  - now apply group_members_NoDup with st1 g.
Qed.

Lemma group_member_receives_witness :
  let st := state_after Frames.sample_parse Frames.sample_engine Frames.scenario in
  let st1 := state_of (handleMessage Frames.sample_parse Frames.sample_engine
                         Frames.carol Frames.join_general st) in
  let r := handleMessage Frames.sample_parse Frames.sample_engine
             Frames.bob Frames.message_to_general st1 in
  is_registered st1 Frames.carol = false
  /\ received Frames.carol (effects_of r)
     = [message (JStr "Bob") (JStr "222") (JStr "general") (JStr "hello")].
Proof.
  split; [reflexivity|].
  exact (proj2 (group_member_receives Frames.sample_parse Frames.sample_engine
                  Frames.scenario
                  Frames.carol Frames.bob Frames.join_general Frames.message_to_general
                  _ _ _ _ eq_refl eq_refl eq_refl eq_refl eq_refl eq_refl eq_refl eq_refl
                  eq_refl)).
Defined.

(* ===================================================================== *)
(** * Connections outside the registries, and connections inside *)
(* ===================================================================== *)

Module PresenceFacts.
Import JS UMessage Runs ContainerFacts HandlerFacts RunFacts DeliveryFacts RegistryFacts.

Lemma caught_received c text r :
  received c (effects_of (caught text r)) = received c (effects_of r).
Proof.
  destruct r as [[[[]|e] s] t]; unfold effects_of; simpl.
  - apply received_console.
  - rewrite received_console, received_app. simpl. apply app_nil_r.
Qed.

Lemma absent_registered c ws u st : ws <> c -> absent c st -> absent c (registered_state ws u st).
Proof.
  intros Hne [Hu Hg]. split; [|exact Hg]. simpl. rewrite map_set_keys.
  destruct (map_has Nat.eqb (users st) ws); [exact Hu|].
  intros H. apply in_app_or in H. destruct H as [H|[H|[]]]; [tauto | congruence].
Qed.

Lemma absent_joined c ws g st : ws <> c -> absent c st -> absent c (joined_state ws g st).
Proof.
  intros Hne [Hu Hg]. split; [exact Hu|]. simpl.
  destruct (map_has strict_eq (groups st) g).
  - induction (groups st) as [|[k members] gs IH]; simpl; [constructor|].
    inversion Hg as [|? ? Hm Hrest]; subst. simpl in Hm.
    destruct (strict_eq k g); constructor; simpl; auto.
    intros H. apply set_add_incl in H. destruct H; [congruence | tauto].
  - apply Forall_app. split; [exact Hg|].
    constructor; [|constructor]. simpl. intros [H|[]]. congruence.
Qed.

Lemma absent_closed c ws st : absent c st -> absent c (closed_state ws st).
Proof.
  intros [Hu Hg]. split; simpl.
  - intros H. apply Hu. now apply map_delete_incl in H.
  - apply Forall_map. eapply Forall_impl; [|exact Hg].
    intros [k members] Hm H. simpl in *. apply Hm. now apply set_delete_incl in H.
Qed.

Lemma absent_others c ws st : absent c st -> ~ In c (map fst (others ws st)).
Proof. intros [Hu _] H. apply others_In in H. tauto. Qed.

Lemma absent_destinations c st to : absent c st -> ~ In c (destinations st to).
Proof.
  intros [Hu Hg]. unfold destinations.
  destruct (map_get strict_eq (groups st) to) as [members|] eqn:Hget.
  - destruct (map_get_entry strict_eq _ _ _ Hget) as [k Hk].
    rewrite Forall_forall in Hg. exact (Hg (k, members) Hk).
  - destruct (targetSocket (users st) to) as [t|] eqn:Ht; [|tauto].
    intros [<-|[]]. apply Hu. eapply targetSocket_registered, Ht.
Qed.

(** The closing of a connection that is in neither registry changes nothing. *)
Lemma closed_state_absent c st : absent c st -> closed_state c st = st.
Proof.
  intros [Hu Hg]. unfold closed_state. rewrite (map_delete_unknown _ _ Hu).
  assert (Hgs : map (fun g => (fst g, set_delete Nat.eqb (snd g) c)) (groups st) = groups st).
  { induction (groups st) as [|[k members] gs IH]; simpl; [reflexivity|].
    inversion Hg as [|? ? Hm Hrest]; subst. simpl in Hm.
    now rewrite (set_delete_unknown _ _ Hm), IH. }
  rewrite Hgs. now destruct st.
Qed.

Lemma closed_state_is_absent c st : well_formed st -> absent c (closed_state c st).
Proof.
  intros [Hu Hg]. split; simpl.
  - now apply map_delete_absent.
  - apply Forall_map. eapply Forall_impl; [|exact Hg].
    intros [k members] Hnd. simpl in *. now apply set_delete_absent.
Qed.

Lemma stays_registered_set c ws u st :
  is_registered st c = true -> is_registered (registered_state ws u st) c = true.
Proof.
  unfold is_registered. simpl. rewrite !map_has_In, map_set_keys.
  destruct (map_has Nat.eqb (users st) ws); [trivial|]. intros H. apply in_or_app. now left.
Qed.

Lemma stays_registered_close c ws st :
  ws <> c -> is_registered st c = true -> is_registered (closed_state ws st) c = true.
Proof.
  unfold is_registered. simpl. rewrite !map_has_In. intros Hne. apply map_delete_keeps. congruence.
Qed.

Lemma stays_member_join c ws g0 g st :
  member_of st g c -> member_of (joined_state ws g0 st) g c.
Proof.
  intros (members & Hget & Hin). unfold member_of, joined_state. simpl.
  destruct (map_has strict_eq (groups st) g0).
  - destruct (map_get_mutate_any strict_eq (groups st) g0 g
                (fun group => set_add Nat.eqb group ws) members Hget) as (v' & Hv' & Hor).
    exists v'. split; [exact Hv'|]. destruct Hor as [->| ->]; [exact Hin|].
    now apply set_add_keeps.
  - exists members. split; [now apply map_get_app | exact Hin].
Qed.

Lemma stays_member_close c ws g st :
  ws <> c -> member_of st g c -> member_of (closed_state ws st) g c.
Proof.
  intros Hne (members & Hget & Hin). unfold member_of, closed_state. simpl.
  exists (set_delete Nat.eqb members ws). split.
  - etransitivity.
    + exact (map_get_map_values strict_eq (groups st) g
               (fun s => set_delete Nat.eqb s ws)).
    + now rewrite Hget.
  - apply set_delete_keeps; [congruence | exact Hin].
Qed.

(** Stored names, mobiles and group names stay primitive. *)
Lemma flat_registered ws u st :
  primitive (name u) = true -> primitive (mobile u) = true ->
  flat_state st -> flat_state (registered_state ws u st).
Proof.
  intros Hn Hm [Hu Hg]. split; [|exact Hg]. simpl.
  clear Hg. induction (users st) as [|[k v] us IH]; simpl.
  - repeat constructor; assumption.
  - inversion Hu as [|? ? Hk Hrest]; subst.
    destruct (Nat.eqb k ws); constructor; simpl; auto.
Qed.

Lemma flat_joined ws g st :
  primitive g = true -> flat_state st -> flat_state (joined_state ws g st).
Proof.
  intros Hp [Hu Hg]. split; [exact Hu|]. simpl.
  destruct (map_has strict_eq (groups st) g).
  - clear Hu. induction (groups st) as [|[k members] gs IH]; simpl; [constructor|].
    inversion Hg as [|? ? Hk Hrest]; subst.
    destruct (strict_eq k g); constructor; simpl; auto.
  - apply Forall_app. split; [exact Hg|]. repeat constructor. exact Hp.
Qed.

Lemma flat_closed ws st : flat_state st -> flat_state (closed_state ws st).
Proof.
  intros [Hu Hg]. split; simpl.
  - clear Hg. induction (users st) as [|[k v] us IH]; simpl; [constructor|].
    inversion Hu as [|? ? Hk Hrest]; subst.
    destruct (Nat.eqb k ws); [exact Hrest | constructor; auto].
  - apply Forall_map. eapply Forall_impl; [|exact Hg]. now intros [k members].
Qed.

Lemma flat_registered_as st ws u :
  flat_state st -> registered_as st ws = Some u ->
  primitive (name u) = true /\ primitive (mobile u) = true.
Proof.
  intros [Hu _] Hget. apply map_get_In in Hget.
  rewrite Forall_forall in Hu. exact (Hu (ws, u) Hget).
Qed.

Lemma flat_sender st ws :
  flat_state st ->
  primitive (sender_name (registered_as st ws)) = true
  /\ primitive (sender_mobile (registered_as st ws)) = true.
Proof.
  intros Hflat. destruct (registered_as st ws) as [u|] eqn:Hget; [|now split].
  exact (flat_registered_as st ws u Hflat Hget).
Qed.

Lemma flat_group_list st : flat_state st -> flat (group_list (map_keys (groups st))) = true.
Proof.
  intros [_ Hg]. unfold flat, map_keys. simpl. apply forallb_forall.
  intros g Hin. apply in_map_iff in Hin. destruct Hin as (e & <- & He).
  rewrite Forall_forall in Hg. now apply Hg.
Qed.

Lemma flat_user_list c st : flat_state st -> flat (user_list (map snd (others c st))) = true.
Proof.
  intros [Hu _]. unfold flat, others. simpl. apply forallb_forall.
  intros v Hin. apply in_flat_map in Hin. destruct Hin as (u & Hu' & Hv).
  apply in_map_iff in Hu'. destruct Hu' as (e & <- & He).
  apply filter_In in He. destruct He as [He _].
  rewrite Forall_forall in Hu. destruct (Hu e He) as [Hn Hm].
  destruct Hv as [<-|[<-|[]]]; assumption.
Qed.

Section Engine.
Variable JSON_parse : string -> option jsval.
Variable E : engine.

(** A frame or a disconnect of another connection sends nothing to a
    connection that is in neither registry, and leaves it there. *)
Lemma absent_dispatch c call st :
  caller call <> c -> absent c st ->
  received c (effects_of (dispatch JSON_parse E call st)) = []
  /\ absent c (state_of (dispatch JSON_parse E call st)).
Proof.
  intros Hne Habs. destruct call as [ws|ws raw|ws]; simpl in Hne; simpl.
  - now split.
  - rewrite handleMessage_run.
    destruct (JSON_parse raw) as [json|]; [|now split].
    destruct (get json "type") as [e|type] eqn:Hget; [now split|].
    assert (Hws : Nat.eqb ws c = false) by now apply Nat.eqb_neq.
    destruct (strict_eq type (JStr "register")) eqn:E1.
    { destruct (typed_frame_is_object _ _ _ Hget E1) as [props ->].
      rewrite caught_received, caught_state, _handleRegister_state.
      split; [|now apply absent_registered].
      rewrite _handleRegister_run. cbv zeta.
      repeat match goal with
             | |- context [match template_throws E ?v with Some _ => _ | None => _ end] =>
                 destruct (template_throws E v)
             | |- context [if stringify_throws E ?p then _ else _] =>
                 destruct (stringify_throws E p)
             end;
        unfold effects_of; simpl;
        rewrite ?received_send, ?received_console, ?received_send, ?Hws; simpl;
        rewrite ?received_send, ?Hws; simpl; try reflexivity.
      apply (received_unreached _ fst _ c (absent_others c ws st Habs)). }
    destruct (strict_eq type (JStr "join_group")) eqn:E2.
    { destruct (typed_frame_is_object _ _ _ Hget E2) as [props ->].
      rewrite caught_received, caught_state, _handleJoinGroup_state.
      split; [|now apply absent_joined].
      rewrite _handleJoinGroup_run. cbv zeta.
      destruct (stringify_throws E (joined_group _)); [reflexivity|].
      destruct (template_throws E _);
        [unfold effects_of; simpl; now rewrite received_send, Hws|].
      destruct (map_has _ _ _);
        [unfold effects_of; simpl; now rewrite received_send, Hws|].
      destruct (stringify_throws E _); unfold effects_of; simpl;
        rewrite received_send, Hws, received_console; simpl; [reflexivity|].
      apply (received_unreached (users st) fst). apply Habs. }
    destruct (strict_eq type (JStr "message")) eqn:E3.
    { destruct (typed_frame_is_object _ _ _ Hget E3) as [props ->].
      rewrite caught_received, caught_state, _handleChatMessage_state.
      split; [|exact Habs].
      rewrite _handleChatMessage_run. cbv zeta.
      pose proof (absent_destinations c st (own_prop props "to") Habs) as Hd.
      destruct (map_get strict_eq (groups st) (own_prop props "to")) as [members|].
      - destruct (stringify_throws E _); [reflexivity|]. unfold effects_of. simpl.
        apply (received_unreached _ (fun d => d)). rewrite map_id. exact Hd.
      - destruct (targetSocket (users st) (own_prop props "to")) as [t|]; [|reflexivity].
        destruct (stringify_throws E _); [reflexivity|]. unfold effects_of. simpl.
        apply (received_unreached _ (fun d => d)). rewrite map_id. exact Hd. }
    now split.
  - rewrite handleClose_run. destruct (registered_as st ws) as [u|].
    + destruct (stringify_throws E _); unfold effects_of, state_of; simpl;
        [now split|]. split; [|now apply absent_closed].
      rewrite received_console. apply (received_unreached _ fst). now apply absent_others.
    + unfold effects_of, state_of. simpl. split; [reflexivity | now apply absent_closed].
Qed.

(** One call that is not the disconnect of [c] keeps [c] where it is. *)
Lemma stays_dispatch c call st :
  call <> Close c ->
  (is_registered st c = true ->
   is_registered (state_of (dispatch JSON_parse E call st)) c = true)
  /\ (forall g, member_of st g c ->
                member_of (state_of (dispatch JSON_parse E call st)) g c).
Proof.
  intros Hcall. destruct call as [ws|ws raw|ws]; simpl.
  - now split.
  - destruct (handleMessage_states JSON_parse E ws raw st) as [->|[[u ->]|[g0 ->]]].
    + now split.
    + split; [apply stays_registered_set | trivial].
    + split; [trivial | intros g; apply stays_member_join].
  - assert (Hne : ws <> c) by (intros ->; now apply Hcall).
    destruct (handleClose_states E ws st) as [[_ ->]|[_ ->]]; [|now split].
    split; [now apply stays_registered_close | intros g; now apply stays_member_close].
Qed.

Lemma stays_run c more st :
  Forall (fun call => call <> Close c) more ->
  (is_registered st c = true ->
   is_registered (state_of (serve_from JSON_parse E st more)) c = true)
  /\ (forall g, member_of st g c ->
                member_of (state_of (serve_from JSON_parse E st more)) g c).
Proof.
  intros Hmore. revert st. unfold serve_from.
  induction Hmore as [|call more Hcall Hrest IH]; intros st; simpl; [now split|].
  pose proof (stays_dispatch c call st Hcall) as Hstep.
  unfold bind. destruct (dispatch JSON_parse E call st) as [[[[]|e] s1] t1];
    unfold state_of in *; simpl in *; [|exact Hstep].
  specialize (IH s1).
  destruct (forEach more (dispatch JSON_parse E) s1) as [[r2 s2] t2]. simpl in *.
  destruct Hstep as [Hs1 Hs2], IH as [IH1 IH2]. split; auto.
Qed.

Lemma stays_registered_after calls more d :
  Forall (fun call => call <> Close d) more ->
  is_registered (state_after JSON_parse E calls) d = true ->
  is_registered (state_after JSON_parse E (calls ++ more)) d = true.
Proof.
  intros Hmore Hreg.
  destruct (state_after_app_cases JSON_parse E calls more) as [-> | ->]; [exact Hreg|].
  now apply stays_run.
Qed.

(** Protocol traffic: a call whose frame has primitive fields, served in a
    state that holds primitives only, returns normally and stores
    primitives only. *)
Lemma flat_dispatch call st :
  flat_call JSON_parse call = true -> flat_state st ->
  result_of (dispatch JSON_parse E call st) = Normal tt
  /\ flat_state (state_of (dispatch JSON_parse E call st)).
Proof.
  intros Hcall Hflat. destruct call as [ws|ws raw|ws]; simpl in *.
  - now split.
  - split; [apply handleMessage_normal|].
    rewrite handleMessage_run.
    destruct (JSON_parse raw) as [json|]; [|exact Hflat].
    destruct (get json "type") as [e|type] eqn:Hget; [exact Hflat|].
    destruct (strict_eq type (JStr "register")) eqn:E1.
    { destruct (typed_frame_is_object _ _ _ Hget E1) as [props ->].
      rewrite caught_state, _handleRegister_state. simpl in Hcall.
      repeat (apply andb_prop in Hcall; destruct Hcall as [? Hcall]).
      now apply flat_registered. }
    destruct (strict_eq type (JStr "join_group")) eqn:E2.
    { destruct (typed_frame_is_object _ _ _ Hget E2) as [props ->].
      rewrite caught_state, _handleJoinGroup_state. simpl in Hcall.
      repeat (apply andb_prop in Hcall; destruct Hcall as [? Hcall]).
      now apply flat_joined. }
    destruct (strict_eq type (JStr "message")) eqn:E3.
    { destruct (typed_frame_is_object _ _ _ Hget E3) as [props ->].
      now rewrite caught_state, _handleChatMessage_state. }
    exact Hflat.
  - rewrite handleClose_run. destruct (registered_as st ws) as [u|] eqn:Hu.
    + destruct (flat_registered_as st ws u Hflat Hu) as [_ Hm].
      rewrite flat_is_serialised by (unfold flat; simpl; now rewrite Hm).
      split; [reflexivity | now apply flat_closed].
    + split; [reflexivity | now apply flat_closed].
Qed.

Lemma flat_run calls st :
  forallb (flat_call JSON_parse) calls = true -> flat_state st ->
  result_of (serve_from JSON_parse E st calls) = Normal tt
  /\ flat_state (state_of (serve_from JSON_parse E st calls)).
Proof.
  unfold serve_from. revert st.
  induction calls as [|call calls IH]; intros st Hcalls Hflat; simpl; [now split|].
  simpl in Hcalls. apply andb_prop in Hcalls. destruct Hcalls as [Hcall Hcalls].
  destruct (flat_dispatch call st Hcall Hflat) as [Hn Hs].
  unfold bind. destruct (dispatch JSON_parse E call st) as [[r1 s1] t1].
  unfold result_of, state_of in *. simpl in *. subst r1.
  specialize (IH s1 Hcalls Hs).
  now destruct (forEach calls (dispatch JSON_parse E) s1) as [[r2 s2] t2].
Qed.

End Engine.

End PresenceFacts.

Import PresenceFacts.

(** X5.  The disconnect of a connection that is in neither registry (it
    never registered nor joined, or has been cleaned up already) changes
    nothing and notifies nobody: only the console line is written. *)
Theorem close_of_unknown_connection (E : engine) (st : uMessage) (c : socket) :
  absent c st ->
  handleClose E c st = (Normal tt, st, [Console WebSocketClosed]).
Proof.
  intros Habs. rewrite handleClose_run. unfold registered_as.
  assert (Hnone : map_get Nat.eqb (users st) c = None) by now apply map_get_None, Habs.
  now rewrite Hnone, (closed_state_absent c st Habs).
Qed.

Lemma close_of_unknown_connection_witness :
  let st := state_after Frames.sample_parse Frames.sample_engine Frames.scenario in
  handleClose Frames.sample_engine Frames.carol st
  = (Normal tt, st, [Console WebSocketClosed]).
Proof.
  refine (close_of_unknown_connection Frames.sample_engine
            (state_after Frames.sample_parse Frames.sample_engine Frames.scenario)
            Frames.carol _).
  split; simpl.
  - intros [H|[H|[]]]; discriminate.
  - repeat constructor. simpl. intros [H|[]]. discriminate.
Defined.

(** X6.  Disconnect handling is idempotent: after any run that ends in a
    disconnect of [c] that has been served (the handler returned rather
    than threw), a second disconnect of [c] leaves both registries as they
    are and sends nothing. *)
Theorem close_is_idempotent (JSON_parse : string -> option jsval) (E : engine)
    (calls : list call) (c : socket) :
  result_of (serve JSON_parse E (calls ++ [Close c])) = Normal tt ->
  let st := state_after JSON_parse E (calls ++ [Close c]) in
  handleClose E c st = (Normal tt, st, [Console WebSocketClosed])
  /\ result_of (serve JSON_parse E (calls ++ [Close c; Close c])) = Normal tt
  /\ state_after JSON_parse E (calls ++ [Close c; Close c]) = st.
Proof.
  intros Hserved st.
  destruct (state_after_close JSON_parse E calls c Hserved) as (_ & _ & Hst).
  fold st in Hst.
  assert (Habs : absent c st).
  { rewrite Hst. apply closed_state_is_absent, state_after_well_formed. }
  assert (Hclose : handleClose E c st = (Normal tt, st, [Console WebSocketClosed])).
  { rewrite handleClose_run. unfold registered_as.
    assert (Hnone : map_get Nat.eqb (users st) c = None) by now apply map_get_None, Habs.
    now rewrite Hnone, (closed_state_absent c st Habs). }
  split; [exact Hclose|].
  change (calls ++ [Close c; Close c]) with (calls ++ [Close c] ++ [Close c]).
  unfold state_after. rewrite app_assoc, serve_app.
  unfold st, state_after, result_of in *.
  destruct (serve JSON_parse E (calls ++ [Close c])) as [[[[]|e] s] t]; [|discriminate].
  unfold serve_from, state_of in *. simpl in *. unfold bind. rewrite Hclose. now split.
Qed.

Lemma close_is_idempotent_witness :
  let st := state_after Frames.sample_parse Frames.sample_engine
              (Frames.scenario ++ [Close Frames.alice]) in
  handleClose Frames.sample_engine Frames.alice st
  = (Normal tt, st, [Console WebSocketClosed])
  /\ state_after Frames.sample_parse Frames.sample_engine
       (Frames.scenario ++ [Close Frames.alice; Close Frames.alice]) = st.
Proof.
  pose proof (close_is_idempotent Frames.sample_parse Frames.sample_engine
                Frames.scenario Frames.alice eq_refl) as (H1 & _ & H3).
  exact (conj H1 H3).
Defined.

(** X7.  The router never sends to a connection it does not hold.  A
    connection that is in neither registry receives nothing from any run of
    calls made by other connections, and is in neither registry after it. *)
Theorem absent_connection_receives_nothing (JSON_parse : string -> option jsval)
    (E : engine) (st : uMessage) (c : socket) (more : list call) :
  absent c st ->
  Forall (fun call => caller call <> c) more ->
  let r := serve_from JSON_parse E st more in
  received c (effects_of r) = [] /\ absent c (state_of r).
Proof.
  intros Habs Hothers. revert st Habs. unfold serve_from.
  induction Hothers as [|call more Hcall Hrest IH]; intros st Habs; simpl; [now split|].
  destruct (absent_dispatch JSON_parse E c call st Hcall Habs) as [Hrecv Hnext].
  unfold bind. destruct (dispatch JSON_parse E call st) as [[[[]|e] s1] t1];
    unfold effects_of, state_of in *; simpl in *; [|now split].
  destruct (IH s1 Hnext) as [IHrecv IHabs].
  destruct (forEach more (dispatch JSON_parse E) s1) as [[r2 s2] t2]. simpl in *.
  split; [|exact IHabs]. now rewrite received_app, Hrecv, IHrecv.
Qed.

Lemma absent_connection_receives_nothing_witness :
  let st := state_after Frames.sample_parse Frames.sample_engine
              (Frames.scenario ++ [Close Frames.bob]) in
  let r := serve_from Frames.sample_parse Frames.sample_engine st
             [Message Frames.alice Frames.message_to_bob;
              Message Frames.carol Frames.register_carol;
              Message Frames.alice Frames.message_to_general;
              Close Frames.alice] in
  received Frames.bob (effects_of r) = [].
Proof.
  refine (proj1 (absent_connection_receives_nothing Frames.sample_parse
            Frames.sample_engine
            (state_after Frames.sample_parse Frames.sample_engine
               (Frames.scenario ++ [Close Frames.bob]))
            Frames.bob
            [Message Frames.alice Frames.message_to_bob;
             Message Frames.carol Frames.register_carol;
             Message Frames.alice Frames.message_to_general;
             Close Frames.alice] _ _)).
  - split; simpl.
    + intros [H|[]]; discriminate.
    + repeat constructor. simpl. intros [H|[]]. discriminate.
  - repeat constructor; simpl; discriminate.
Defined.

(** X8.  Nothing but its own disconnect takes a connection out: along any
    run of calls none of which is the disconnect of [c], a registered [c]
    stays registered and [c] stays a member of every group it is a member
    of. *)
Theorem membership_persists (JSON_parse : string -> option jsval) (E : engine)
    (st : uMessage) (c : socket) (more : list call) :
  Forall (fun call => call <> Close c) more ->
  let st' := state_of (serve_from JSON_parse E st more) in
  (is_registered st c = true -> is_registered st' c = true)
  /\ (forall g, member_of st g c -> member_of st' g c).
Proof.
  intros Hmore st'. now apply stays_run.
Qed.

Lemma membership_persists_witness :
  let st := state_after Frames.sample_parse Frames.sample_engine Frames.scenario in
  let st' := state_of (serve_from Frames.sample_parse Frames.sample_engine st
                         [Message Frames.alice Frames.register_unprintable;
                          Message Frames.bob Frames.join_general;
                          Close Frames.bob; Close Frames.carol]) in
  is_registered st' Frames.alice = true /\ member_of st' (JStr "general") Frames.alice.
Proof.
  pose proof (membership_persists Frames.sample_parse Frames.sample_engine
                (state_after Frames.sample_parse Frames.sample_engine Frames.scenario)
                Frames.alice
                [Message Frames.alice Frames.register_unprintable;
                 Message Frames.bob Frames.join_general;
                 Close Frames.bob; Close Frames.carol]) as H.
  assert (Hmore : Forall (fun call => call <> Close Frames.alice)
                    [Message Frames.alice Frames.register_unprintable;
                     Message Frames.bob Frames.join_general;
                     Close Frames.bob; Close Frames.carol])
    by (repeat constructor; discriminate).
  destruct (H Hmore) as [H1 H2].
  split; [exact (H1 eq_refl)|].
  apply H2. exists [Frames.alice]. split; [reflexivity | now left].
Defined.

(** X9.  A group name or an address that is an object or an array never
    meets a stored key: a [join_group] frame under such a name always adds
    one more group, with the joiner as its only member, and a [message]
    frame addressed to such a value is delivered to nobody, before that join
    and after it. *)
Theorem object_names_meet_nothing (JSON_parse : string -> option jsval) (E : engine)
    (st : uMessage) (c ws : socket) (text1 text2 : string)
    (json1 json2 g content : jsval) :
  JSON_parse text1 = Some json1 ->
  get json1 "type" = inr (JStr "join_group") ->
  get json1 "groupName" = inr g ->
  JSON_parse text2 = Some json2 ->
  get json2 "type" = inr (JStr "message") ->
  get json2 "to" = inr g ->
  get json2 "content" = inr content ->
  strict_eq g g = false ->
  let st1 := state_of (handleMessage JSON_parse E c text1 st) in
  groups st1 = groups st ++ [(g, [c])]
  /\ sends (effects_of (handleMessage JSON_parse E ws text2 st)) = []
  /\ sends (effects_of (handleMessage JSON_parse E ws text2 st1)) = [].
Proof.
  intros Hp1 Ht1 Hg Hp2 Ht2 Hto Hcontent Hobj st1.
  assert (Hst : st1 = joined_state c g st) by now apply join_group_state with (json := json1).
  assert (Hnone : forall s, destinations s g = []).
  { intros s. unfold destinations.
    now rewrite (no_group_under_object _ _ Hobj), (no_target_under_object _ _ Hobj). }
  assert (Hsilent : forall s, sends (effects_of (handleMessage JSON_parse E ws text2 s)) = []).
  { intros s.
    destruct (message_sends JSON_parse E ws text2 json2 g content s Hp2 Ht2 Hto Hcontent)
      as (_ & _ & [H|H]); [|exact H].
    now rewrite H, Hnone. }
  split; [|split; apply Hsilent].
  rewrite Hst. unfold joined_state, map_has. simpl.
  now rewrite (no_group_under_object _ _ Hobj).
Qed.

Lemma object_names_meet_nothing_witness :
  let st := state_after OddFrames.sample_parse Frames.sample_engine
              (Frames.scenario ++ [Message Frames.bob OddFrames.join_object]) in
  let st1 := state_of (handleMessage OddFrames.sample_parse Frames.sample_engine
                         Frames.bob OddFrames.join_object st) in
  groups st1 = [(JStr "general", [Frames.alice]);
                (OddFrames.an_object, [Frames.bob]);
                (OddFrames.an_object, [Frames.bob])]
  /\ sends (effects_of (handleMessage OddFrames.sample_parse Frames.sample_engine
                           Frames.alice OddFrames.message_to_object st1)) = [].
Proof.
  pose proof (object_names_meet_nothing OddFrames.sample_parse Frames.sample_engine
                (state_after OddFrames.sample_parse Frames.sample_engine
                   (Frames.scenario ++ [Message Frames.bob OddFrames.join_object]))
                Frames.bob Frames.alice OddFrames.join_object OddFrames.message_to_object
                _ _ _ _ eq_refl eq_refl eq_refl eq_refl eq_refl eq_refl eq_refl eq_refl) as H.
  exact (conj (proj1 H) (proj2 (proj2 H))).
Defined.

(** X10.  Groups created earlier are announced to whoever registers later:
    a name that is in the group registry at some point of a run is in the
    [group_list] sent to every connection that registers at any later point
    (with a name and mobile that the log line prints and a list of names
    that [JSON.stringify] serialises, as is so of every string). *)
Theorem earlier_groups_are_announced (JSON_parse : string -> option jsval) (E : engine)
    (calls more : list call) (c : socket) (text : string) (json n m g : jsval) :
  JSON_parse text = Some json ->
  get json "type" = inr (JStr "register") ->
  get json "name" = inr n ->
  get json "mobile" = inr m ->
  template_throws E n = None ->
  template_throws E m = None ->
  In g (map_keys (groups (state_after JSON_parse E calls))) ->
  let st := state_after JSON_parse E (calls ++ more) in
  stringify_throws E (group_list (map_keys (groups st))) = false ->
  let r := handleMessage JSON_parse E c text st in
  exists names, In (group_list names) (received c (effects_of r)) /\ In g names.
Proof.
  intros Hparse Htype Hn Hm Hpn Hpm Hin st Hgl r.
  exists (map_keys (groups st)). split.
  - unfold r. frame_object Htype.
    simpl in Hn, Hm. injection Hn as Hn. injection Hm as Hm.
    rewrite handleMessage_run, Hparse, Htype. simpl.
    rewrite caught_received, _handleRegister_run. cbv zeta. simpl.
    rewrite Hn, Hm, Hpn, Hpm, Hgl.
    repeat match goal with
           | |- context [if stringify_throws E ?p then _ else _] =>
               destruct (stringify_throws E p)
           end;
      unfold effects_of; simpl;
      rewrite received_send, Nat.eqb_refl, received_console, received_send, Nat.eqb_refl;
      simpl; right; now left.
  - unfold st. destruct (state_after_app JSON_parse E calls more) as [later ->].
    apply in_or_app. now left.
Qed.

Lemma earlier_groups_are_announced_witness :
  let r := handleMessage Frames.sample_parse Frames.sample_engine
             Frames.carol Frames.register_carol
             (state_after Frames.sample_parse Frames.sample_engine
                (Frames.scenario ++ [Close Frames.alice; Close Frames.bob])) in
  exists names, In (group_list names) (received Frames.carol (effects_of r))
                /\ In (JStr "general") names.
Proof.
  refine (earlier_groups_are_announced Frames.sample_parse Frames.sample_engine
            Frames.scenario
            [Close Frames.alice; Close Frames.bob] Frames.carol Frames.register_carol
            _ _ _ (JStr "general") eq_refl eq_refl eq_refl eq_refl eq_refl eq_refl _
            eq_refl).
  now left.
Defined.

(** X11.  Users registered earlier are listed to whoever registers later: a
    connection [d] that is registered at some point of a run and does not
    disconnect afterwards is, with the name and mobile it then has, in the
    [user_list] sent to every other connection that registers at any later
    point (with a name and mobile that the log line prints and lists that
    [JSON.stringify] serialises, as is so of every string). *)
Theorem earlier_users_are_listed (JSON_parse : string -> option jsval) (E : engine)
    (calls more : list call) (c d : socket) (text : string) (json n m : jsval) :
  JSON_parse text = Some json ->
  get json "type" = inr (JStr "register") ->
  get json "name" = inr n ->
  get json "mobile" = inr m ->
  template_throws E n = None ->
  template_throws E m = None ->
  d <> c ->
  is_registered (state_after JSON_parse E calls) d = true ->
  Forall (fun call => call <> Close d) more ->
  let st := state_after JSON_parse E (calls ++ more) in
  stringify_throws E (group_list (map_keys (groups st))) = false ->
  stringify_throws E (user_list (map snd (others c st))) = false ->
  let r := handleMessage JSON_parse E c text st in
  exists v listed,
    registered_as st d = Some v
    /\ In (user_list listed) (received c (effects_of r))
    /\ In v listed.
Proof.
  intros Hparse Htype Hn Hm Hpn Hpm Hne Hreg Hmore st Hgl Hul r.
  assert (Hstill : is_registered st d = true) by now apply stays_registered_after.
  unfold is_registered, map_has in Hstill. unfold registered_as.
  destruct (map_get Nat.eqb (users st) d) as [v|] eqn:Hget; [|discriminate].
  exists v, (map snd (others c st)). split; [reflexivity|]. split.
  - unfold r. frame_object Htype.
    simpl in Hn, Hm. injection Hn as Hn. injection Hm as Hm.
    rewrite handleMessage_run, Hparse, Htype. simpl.
    rewrite caught_received, _handleRegister_run. cbv zeta. simpl.
    rewrite Hn, Hm, Hpn, Hpm, Hgl, Hul.
    destruct (stringify_throws E (user_joined _)); unfold effects_of; simpl;
      rewrite received_send, Nat.eqb_refl, received_console, !received_send, Nat.eqb_refl;
      simpl; right; right; now left.
  - apply (in_map snd (others c st) (d, v)). unfold others. apply filter_In. split.
    + now apply map_get_In.
    + simpl. apply negb_true_iff. now apply Nat.eqb_neq.
Qed.

Lemma earlier_users_are_listed_witness :
  let st := state_after Frames.sample_parse Frames.sample_engine
              (Frames.scenario ++ [Message Frames.alice Frames.message_to_bob;
                                   Close Frames.bob]) in
  let r := handleMessage Frames.sample_parse Frames.sample_engine
             Frames.carol Frames.register_carol st in
  exists v listed,
    registered_as st Frames.alice = Some v
    /\ In (user_list listed) (received Frames.carol (effects_of r))
    /\ In v listed.
Proof.
  refine (earlier_users_are_listed Frames.sample_parse Frames.sample_engine
            Frames.scenario
            [Message Frames.alice Frames.message_to_bob; Close Frames.bob]
            Frames.carol Frames.alice Frames.register_carol _ _ _
            eq_refl eq_refl eq_refl eq_refl eq_refl eq_refl _ eq_refl _ eq_refl eq_refl).
  - discriminate.
  - repeat constructor; discriminate.
Defined.

(** X12.  A registered sender is shown as it last registered: after a
    [register] frame from [ws], every payload that a [message] frame from
    [ws] produces carries the name and mobile of that frame, also when [ws]
    was registered under another name before; and where [JSON.stringify]
    serialises that payload it goes to each destination. *)
Theorem sender_is_shown_as_registered (JSON_parse : string -> option jsval) (E : engine)
    (st : uMessage) (ws : socket) (text1 text2 : string)
    (json1 json2 n m to content : jsval) :
  JSON_parse text1 = Some json1 ->
  get json1 "type" = inr (JStr "register") ->
  get json1 "name" = inr n ->
  get json1 "mobile" = inr m ->
  JSON_parse text2 = Some json2 ->
  get json2 "type" = inr (JStr "message") ->
  get json2 "to" = inr to ->
  get json2 "content" = inr content ->
  let st1 := state_of (handleMessage JSON_parse E ws text1 st) in
  let r := handleMessage JSON_parse E ws text2 st1 in
  let p := message n m to content in
  (forall d q, In (d, q) (sends (effects_of r)) -> q = p)
  /\ (stringify_throws E p = false ->
      sends (effects_of r) = map (fun d => (d, p)) (destinations st1 to)).
Proof.
  intros Hp1 Ht1 Hn Hm Hp2 Ht2 Hto Hcontent st1 r p.
  assert (Hst : st1 = registered_state ws {| name := n; mobile := m |} st)
    by now apply register_state with (json := json1).
  assert (Hsender : registered_as st1 ws = Some {| name := n; mobile := m |}).
  { rewrite Hst. unfold registered_as. simpl. apply map_get_set. }
  split.
  - destruct (message_sends JSON_parse E ws text2 json2 to content st1 Hp2 Ht2 Hto Hcontent)
      as (_ & _ & Hsends).
    fold r in Hsends. rewrite Hsender in Hsends. simpl in Hsends. fold p in Hsends.
    intros d q Hin. destruct Hsends as [H|H]; rewrite H in Hin; [|destruct Hin].
    apply in_map_iff in Hin. now destruct Hin as (x & [= _ <-] & _).
  - intros Hp. unfold r.
    rewrite (message_run JSON_parse E ws text2 json2 to content st1 Hp2 Ht2 Hto Hcontent);
      rewrite Hsender; simpl; [|exact Hp].
    unfold effects_of. simpl.
    apply (sends_broadcast (destinations st1 to) (fun d => d)).
Qed.

Lemma sender_is_shown_as_registered_witness :
  let st := state_after Frames.sample_parse Frames.sample_engine Frames.scenario in
  let st1 := state_of (handleMessage Frames.sample_parse Frames.sample_engine
                         Frames.alice Frames.register_carol st) in
  let r := handleMessage Frames.sample_parse Frames.sample_engine
             Frames.alice Frames.message_to_bob st1 in
  sends (effects_of r)
  = [(Frames.bob, message (JStr "Carol") (JStr "general") (JStr "222") (JStr "hi"))].
Proof.
  exact (proj2 (sender_is_shown_as_registered Frames.sample_parse Frames.sample_engine
           (state_after Frames.sample_parse Frames.sample_engine Frames.scenario)
           Frames.alice
           Frames.register_carol Frames.message_to_bob _ _ _ _ _ _
           eq_refl eq_refl eq_refl eq_refl eq_refl eq_refl eq_refl eq_refl) eq_refl).
Defined.

(* ===================================================================== *)
(** * The two server files *)
(* ===================================================================== *)

(** X13.  The server file that delegates to a [uMessage] object and the
    stand-alone server.js are the same server: on every sequence of
    [open], [message], [drain] and [close] events they end in the same
    registries and perform the same effects in the same order. *)
Theorem servers_agree (JSON_parse : string -> option jsval) (E : engine)
    (events : list App.ws_event) :
  App.run (App.standalone JSON_parse E) events = App.run (App.delegating JSON_parse E) events.
Proof.
  unfold App.run. generalize new_uMessage.
  induction events as [|ev events IH]; intros s; simpl; [reflexivity|].
  assert (Hev : App.standalone JSON_parse E ev s = App.delegating JSON_parse E ev s).
  { destruct ev as [res|res raw|res amount|res]; reflexivity. }
  unfold App.and_then. rewrite Hev.
  destruct (App.delegating JSON_parse E ev s) as [[[[]|e] s1] t1]; [|reflexivity].
  now rewrite IH.
Qed.

(** X14.  What the server does is what the [uMessage] object does: on every
    sequence of events the server returns or throws as the object does on
    the calls handed to it, it ends in the state the object reaches, the
    router's effects are the object's in the same order, and [open] and
    [drain] add console lines only. *)
Theorem server_run_is_router_run (JSON_parse : string -> option jsval) (E : engine)
    (events : list App.ws_event) :
  let r := App.run (App.delegating JSON_parse E) events in
  fst (fst r) = result_of (serve JSON_parse E (App.calls_of events))
  /\ snd (fst r) = state_after JSON_parse E (App.calls_of events)
  /\ App.router_effects (snd r) = effects_of (serve JSON_parse E (App.calls_of events)).
Proof.
  unfold App.run, state_after, serve, effects_of, result_of, state_of.
  generalize new_uMessage.
  induction events as [|ev events IH]; intros s; [now repeat split|].
  assert (Hmap : forall t, App.router_effects (map App.Router t) = t).
  { induction t as [|x t IHt]; simpl; [reflexivity | now rewrite IHt]. }
  assert (Happ : forall t1 t2, App.router_effects (t1 ++ t2)
                               = App.router_effects t1 ++ App.router_effects t2).
  { induction t1 as [|[x|l] t1 IHt]; intros t2; simpl; [reflexivity| |apply IHt].
    now rewrite IHt. }
  destruct ev as [res|res raw|res amount|res]; cbn [App.calls_of App.handle_all].
  - specialize (IH s). cbn [forEach]. unfold bind, App.and_then. simpl.
    destruct (App.handle_all (App.delegating JSON_parse E) events s) as [[r1 s1] t1].
    destruct (forEach (App.calls_of events) (dispatch JSON_parse E) s) as [[r2 s2] t2].
    simpl in *. destruct IH as (-> & -> & IH3). simpl. now repeat split.
  - cbn [forEach dispatch]. unfold bind, App.and_then. simpl. unfold App.router.
    destruct (handleMessage JSON_parse E res raw s) as [[[[]|e] s0] t0];
      [|simpl; now rewrite Hmap].
    specialize (IH s0).
    destruct (App.handle_all (App.delegating JSON_parse E) events s0) as [[r1 s1] t1].
    destruct (forEach (App.calls_of events) (dispatch JSON_parse E) s0) as [[r2 s2] t2].
    simpl in *. destruct IH as (-> & -> & IH3). rewrite Happ, Hmap, IH3. now repeat split.
  - specialize (IH s). unfold App.and_then. simpl.
    destruct (App.handle_all (App.delegating JSON_parse E) events s) as [[r1 s1] t1].
    simpl in *. exact IH.
  - cbn [forEach dispatch]. unfold bind, App.and_then. simpl. unfold App.router.
    destruct (handleClose E res s) as [[[[]|e] s0] t0];
      [|simpl; now rewrite Hmap].
    specialize (IH s0).
    destruct (App.handle_all (App.delegating JSON_parse E) events s0) as [[r1 s1] t1].
    destruct (forEach (App.calls_of events) (dispatch JSON_parse E) s0) as [[r2 s2] t2].
    simpl in *. destruct IH as (-> & -> & IH3). rewrite Happ, Hmap, IH3. now repeat split.
Qed.

(* ===================================================================== *)
(** * Traffic of strings, and a mobile that is none *)
(* ===================================================================== *)

(** X15.  Protocol traffic is always served.  Along a run whose frames carry
    primitives (strings, as the protocol has them, numbers, booleans,
    [null] or nothing) in [name], [mobile], [groupName], [to] and [content],
    no handler throws, every stored name, mobile and group name is a
    primitive, and on every engine each payload that the router builds in
    the state reached is serialised and each primitive printed: the
    snapshots of a registration and its announcement, the confirmation and
    the announcement of a group, the announcement of a departure, and the
    chat message of any sender with primitive [to] and [content]. *)
Theorem string_traffic_is_served (JSON_parse : string -> option jsval) (E : engine)
    (calls : list call) :
  forallb (flat_call JSON_parse) calls = true ->
  let st := state_after JSON_parse E calls in
  result_of (serve JSON_parse E calls) = Normal tt
  /\ flat_state st
  /\ (forall c,
        stringify_throws E (group_list (map_keys (groups st))) = false
        /\ stringify_throws E (user_list (map snd (others c st))) = false
        /\ (forall u, registered_as st c = Some u ->
                      stringify_throws E (user_left (mobile u)) = false)
        /\ result_of (handleClose E c st) = Normal tt)
  /\ (forall ws to content,
        primitive to = true -> primitive content = true ->
        stringify_throws E (message (sender_name (registered_as st ws))
                                    (sender_mobile (registered_as st ws)) to content)
        = false)
  /\ (forall v w, primitive v = true -> primitive w = true ->
        template_throws E v = None
        /\ stringify_throws E (joined_group v) = false
        /\ stringify_throws E (group_created v) = false
        /\ stringify_throws E (user_joined {| name := v; mobile := w |}) = false).
Proof.
  intros Hcalls st.
  assert (Hnew : flat_state new_uMessage) by (split; constructor).
  destruct (flat_run JSON_parse E calls new_uMessage Hcalls Hnew) as [Hn Hflat].
  change (flat_state st) in Hflat.
  split; [exact Hn|]. split; [exact Hflat|]. split; [|split].
  - intros c.
    assert (Hleft : forall u, registered_as st c = Some u ->
                              stringify_throws E (user_left (mobile u)) = false).
    { intros u Hu. destruct (flat_registered_as st c u Hflat Hu) as [_ Hm].
      apply flat_is_serialised. unfold flat. simpl. now rewrite Hm. }
    split; [apply flat_is_serialised, flat_group_list, Hflat|].
    split; [apply flat_is_serialised, flat_user_list, Hflat|].
    split; [exact Hleft | now apply handleClose_returns].
  - intros ws to content Hto Hcontent. apply flat_is_serialised.
    destruct (flat_sender st ws Hflat) as [Hname Hmobile].
    unfold flat. simpl. now rewrite Hname, Hmobile, Hto, Hcontent.
  - intros v w Hv Hw. split; [now apply primitive_is_printed|].
    repeat split; apply flat_is_serialised; unfold flat; simpl; now rewrite Hv, ?Hw.
Qed.

Lemma string_traffic_is_served_witness :
  let calls := Frames.scenario ++ [Message Frames.alice Frames.message_to_bob;
                                   Close Frames.bob] in
  let st := state_after Frames.sample_parse Frames.sample_engine calls in
  result_of (serve Frames.sample_parse Frames.sample_engine calls) = Normal tt
  /\ flat_state st
  /\ result_of (handleClose Frames.sample_engine Frames.alice st) = Normal tt.
Proof.
  pose proof (string_traffic_is_served Frames.sample_parse Frames.sample_engine
                (Frames.scenario ++ [Message Frames.alice Frames.message_to_bob;
                                     Close Frames.bob]) eq_refl)
    as (H1 & H2 & H3 & _).
  exact (conj H1 (conj H2 (proj2 (proj2 (proj2 (H3 Frames.alice)))))).
Defined.

(** X16.  A departure that cannot be announced removes nothing.  When the
    connection is registered with a mobile whose [user_left] payload
    [JSON.stringify] does not serialise (a value nested too deep for the
    engine), [handleClose] throws the RangeError before it sends anything:
    the connection stays in the user registry and in every group it is a
    member of, and a frame addressed to its groups or its mobile is still
    sent to it. *)
Theorem unannounced_close_removes_nothing (E : engine) (st : uMessage) (c : socket)
    (u : user) :
  registered_as st c = Some u ->
  stringify_throws E (user_left (mobile u)) = true ->
  let r := handleClose E c st in
  r = (Thrown RangeError, st, [Console WebSocketClosed])
  /\ sends (effects_of r) = []
  /\ is_registered (state_of r) c = true
  /\ (forall g, member_of st g c -> member_of (state_of r) g c)
  /\ (forall to, destinations (state_of r) to = destinations st to).
Proof.
  intros Hu Hthrows r.
  assert (Hr : r = (Thrown RangeError, st, [Console WebSocketClosed])).
  { unfold r. now rewrite handleClose_run, Hu, Hthrows. }
  rewrite Hr. unfold effects_of, state_of. simpl.
  split; [reflexivity|]. split; [reflexivity|]. split; [|now split].
  unfold is_registered, map_has. unfold registered_as in Hu. now rewrite Hu.
Qed.

Lemma unannounced_close_removes_nothing_witness :
  let calls := Frames.scenario
               ++ [Message DeepFrames.dave DeepFrames.register_deep;
                   Message DeepFrames.dave Frames.join_general] in
  let st := state_after DeepFrames.sample_parse Frames.sample_engine calls in
  let r := handleClose Frames.sample_engine DeepFrames.dave st in
  r = (Thrown RangeError, st, [Console WebSocketClosed])
  /\ is_registered (state_of r) DeepFrames.dave = true
  /\ destinations (state_of r) (JStr "general") = [Frames.alice; DeepFrames.dave].
Proof.
  pose proof (unannounced_close_removes_nothing Frames.sample_engine
                (state_after DeepFrames.sample_parse Frames.sample_engine
                   (Frames.scenario
                    ++ [Message DeepFrames.dave DeepFrames.register_deep;
                        Message DeepFrames.dave Frames.join_general]))
                DeepFrames.dave {| name := JStr "Dave"; mobile := DeepFrames.deep |}
                eq_refl eq_refl) as (H1 & _ & H3 & _ & H5).
  exact (conj H1 (conj H3 (H5 (JStr "general")))).
Defined.
